(** * anycache: a mutex-guarded [map[any]any]

    Shallow embedding of [pkg/anycache/anycache.go] and proofs of the
    properties its specification states.

    The development has five layers:
    - [GoValue]: the dynamic values an [any] can hold, the run-time
      notion of a hashable key and Go's [==] on keys;
    - [GoMap]: the built-in map, as a list of entries whose keys are
      pairwise unequal;
    - [Runtime]: a heap of maps, mutexes and backing arrays, the
      primitive actions on it, and programs with [defer];
    - [AnyCache]: the functions of the package, statement by statement,
      and histories of calls;
    - [Concurrent]: goroutines that run calls at the same time, one
      action at a time in any order.
    The properties follow the definitions. *)

From Stdlib Require Import ZArith.
From Stdlib Require Import Floats.SpecFloat.
From stdpp Require Import base numbers option list strings gmap relations.

Set Default Proof Using "Type".
Set Warnings "-clear-no-such-hyp".

(* ===================================================================== *)
(** * Values of type [any] *)
(* ===================================================================== *)

Module GoValue.

(** The element types an array value may be declared with.  Only the
    comparability of the element type matters to a map. *)
Inductive gotype : Type :=
| TBool
| TInt
| TString
| TFloat64
| TAny
| TFunc
| TArray (len : nat) (elem : gotype).

#[global] Instance gotype_eq_dec : EqDecision gotype.
Proof. solve_decision. Defined.

(** Go: "function types are not comparable; array types are comparable
    if their element types are". *)
Fixpoint comparable_type (t : gotype) : bool :=
  match t with
  | TFunc => false
  | TArray _ elem => comparable_type elem
  | _ => true
  end.

(** A value stored in an interface of type [any]: the nil interface
    [VNil], which is also the zero value of [any], or a value of one of
    the dynamic types modelled here, booleans, [int], strings,
    [float64], functions, arrays and structs. *)
#[warnings="-register-all"]
Inductive value : Type :=
| VNil
| VBool (b : bool)
| VInt (n : Z)
| VString (s : string)
| VFloat64 (f : spec_float)
| VFunc (code : positive)
| VArray (elem : gotype) (elems : list value)
| VStruct (name : string) (fields : list value).

(** Whether the run-time can hash the value: using an unhashable value
    as a key of a [map[any]any] panics ("hash of unhashable type"). *)
Fixpoint hashable (v : value) : bool :=
  match v with
  | VFunc _ => false
  | VArray elem elems => comparable_type elem && forallb hashable elems
  | VStruct _ fields => forallb hashable fields
  | _ => true
  end.

(** Go's [==] on interface values: identical dynamic types and equal
    dynamic values.  Floats compare as IEEE 754 says, so a NaN differs
    from itself, and the two zeros are equal. *)
Fixpoint go_eq (x y : value) : bool :=
  match x, y with
  | VNil, VNil => true
  | VBool a, VBool b => Bool.eqb a b
  | VInt a, VInt b => Z.eqb a b
  | VString a, VString b => String.eqb a b
  | VFloat64 a, VFloat64 b => SFeqb a b
  | VArray t xs, VArray u ys =>
      bool_decide (t = u) &&
      (fix all_eq (xs ys : list value) : bool :=
         match xs, ys with
         | [], [] => true
         | x :: xs', y :: ys' => go_eq x y && all_eq xs' ys'
         | _, _ => false
         end) xs ys
  | VStruct n xs, VStruct m ys =>
      String.eqb n m &&
      (fix all_eq (xs ys : list value) : bool :=
         match xs, ys with
         | [], [] => true
         | x :: xs', y :: ys' => go_eq x y && all_eq xs' ys'
         | _, _ => false
         end) xs ys
  | _, _ => false
  end.

(** The component-wise comparison of arrays and structs, named. *)
Fixpoint go_eq_list (xs ys : list value) : bool :=
  match xs, ys with
  | [], [] => true
  | x :: xs', y :: ys' => go_eq x y && go_eq_list xs' ys'
  | _, _ => false
  end.

(** A key is reflexive when it is equal to itself. *)
Definition reflexive (k : value) : bool := go_eq k k.

(** The value is a NaN or has one among its components. *)
Fixpoint has_nan (v : value) : bool :=
  match v with
  | VFloat64 S754_nan => true
  | VArray _ elems => existsb has_nan elems
  | VStruct _ fields => existsb has_nan fields
  | _ => false
  end.

End GoValue.

(* ===================================================================== *)
(** * The built-in map *)
(* ===================================================================== *)

Module GoMap.
Import GoValue.

Definition entry : Type := value * value.

(** The entries of a [map[any]any].  The run-time keeps the keys
    hashable and pairwise unequal ([map_wf]); the order of the list is
    not observable, [for range] visits it in an order of its own. *)
Definition gomap : Type := list entry.

(** [v, ok := m[key]] *)
Fixpoint map_index (m : gomap) (key : value) : option value :=
  match m with
  | [] => None
  | (k, v) :: m' => if go_eq k key then Some v else map_index m' key
  end.

(** [m[key] = v].  An entry with an equal key is overwritten, key
    included (the run-time updates the key of an interface-keyed map,
    which is observable for the two float zeros). *)
Fixpoint map_assign (m : gomap) (key v : value) : gomap :=
  match m with
  | [] => [(key, v)]
  | (k, v0) :: m' =>
      if go_eq k key then (key, v) :: m' else (k, v0) :: map_assign m' key v
  end.

Definition keys (m : gomap) : list value := m.*1.

(** An entry for [key] exists: some stored key is equal to it. *)
Definition has_key (m : gomap) (key : value) : bool :=
  existsb (λ e, go_eq e.1 key) m.

Fixpoint distinct_keys (m : gomap) : bool :=
  match m with
  | [] => true
  | (k, _) :: m' => negb (has_key m' k) && distinct_keys m'
  end.

(** The keys of a list are pairwise unequal. *)
Fixpoint distinct (ks : list value) : bool :=
  match ks with
  | [] => true
  | k :: ks' => negb (existsb (λ k', go_eq k' k) ks') && distinct ks'
  end.

Definition map_wf (m : gomap) : bool :=
  forallb (λ e, hashable e.1) m && distinct_keys m.

End GoMap.

(* ===================================================================== *)
(** * The run-time: heap, primitive actions, programs *)
(* ===================================================================== *)

Module Runtime.
Import GoValue GoMap.

Definition loc : Type := positive.

(** A slice header: pointer to the backing array, length, capacity. *)
Record slice : Type := Slice { ptr : loc; len : nat; cap : nat }.

(** The heap.  Maps, mutexes and backing arrays are reference objects:
    copying a struct that holds one copies the reference, not the
    object.  [entropy] and [ticks] are the random source from which the
    run-time draws the order of a map iteration. *)
Record heap : Type := Heap {
  maps : gmap loc gomap;
  mutexes : gmap loc bool;
  arrays : gmap loc (list value);
  brk : loc;
  entropy : nat → nat;
  ticks : nat
}.

Definition set_maps (f : gmap loc gomap → gmap loc gomap) (σ : heap) : heap :=
  Heap (f (maps σ)) (mutexes σ) (arrays σ) (brk σ) (entropy σ) (ticks σ).
Definition set_mutexes (f : gmap loc bool → gmap loc bool) (σ : heap) : heap :=
  Heap (maps σ) (f (mutexes σ)) (arrays σ) (brk σ) (entropy σ) (ticks σ).
Definition set_arrays (f : gmap loc (list value) → gmap loc (list value))
    (σ : heap) : heap :=
  Heap (maps σ) (mutexes σ) (f (arrays σ)) (brk σ) (entropy σ) (ticks σ).
Definition bump (σ : heap) : heap :=
  Heap (maps σ) (mutexes σ) (arrays σ) (Pos.succ (brk σ)) (entropy σ) (ticks σ).
Definition advance (n : nat) (σ : heap) : heap :=
  Heap (maps σ) (mutexes σ) (arrays σ) (brk σ) (entropy σ) (n + ticks σ).

(** The order in which [for range] visits [n] entries of [l]: at each
    step the run-time draws one of the entries not visited yet. *)
Fixpoint visit {A} (rnd : nat → nat) (t n : nat) (l : list A) : list A :=
  match n with
  | 0 => []
  | S n' =>
      let i := rnd t `mod` length l in
      match l !! i with
      | Some x => x :: visit rnd (S t) n' (delete i l)
      | None => []
      end
  end.

Definition iteration {A} (rnd : nat → nat) (t : nat) (l : list A) : list A :=
  visit rnd t (length l) l.

(** The contents a slice header denotes. *)
Definition slice_elems (σ : heap) (s : slice) : list value :=
  take (len s) (default [] (arrays σ !! ptr s)).

(** ** Primitive actions *)

Inductive action : Type → Type :=
| MutexLock (mu : loc) : action unit
| MutexUnlock (mu : loc) : action unit
| NewMutex : action loc
| MakeMap (hint : Z) : action loc
| MapIndex (m : loc) (key : value) : action (option value)
| MapAssign (m : loc) (key v : value) : action unit
| MapClear (m : loc) : action unit
| MapLen (m : loc) : action Z
| MapRange (m : loc) : action (list entry)
| MakeSlice (n c : nat) : action slice
| Append (s : slice) (x : value) : action slice.

(** What one action does: it completes with a result and a new heap,
    raises a run-time panic, or has to wait. *)
Inductive effect (R : Type) : Type :=
| Done (r : R) (σ : heap)
| Raise (e : string)
| Wait.
Arguments Done {R} r σ.
Arguments Raise {R} e.
Arguments Wait {R}.

Definition unhashable : string := "runtime error: hash of unhashable type".
Definition nil_deref : string :=
  "runtime error: invalid memory address or nil pointer dereference".
Definition nil_map_assign : string := "assignment to entry in nil map".
Definition bad_unlock : string := "fatal error: sync: unlock of unlocked mutex".
Definition bad_makeslice : string := "runtime error: makeslice: cap out of range".

(** A location that holds no map is the nil map: it reads as empty and
    cannot be assigned to. *)
Definition do_action {R} (a : action R) (σ : heap) : effect R :=
  match a in action R return effect R with
  | MutexLock mu =>
      match mutexes σ !! mu with
      | Some false => Done () (set_mutexes <[mu := true]> σ)
      | Some true => Wait
      | None => Raise nil_deref
      end
  | MutexUnlock mu =>
      match mutexes σ !! mu with
      | Some true => Done () (set_mutexes <[mu := false]> σ)
      | Some false => Raise bad_unlock
      | None => Raise nil_deref
      end
  | NewMutex =>
      Done (brk σ) (bump (set_mutexes <[brk σ := false]> σ))
  | MakeMap _ =>
      Done (brk σ) (bump (set_maps <[brk σ := []]> σ))
  | MapIndex m key =>
      if hashable key
      then Done (map_index (default [] (maps σ !! m)) key) σ
      else Raise unhashable
  | MapAssign m key v =>
      match maps σ !! m with
      | None => Raise nil_map_assign
      | Some em =>
          if hashable key
          then Done () (set_maps <[m := map_assign em key v]> σ)
          else Raise unhashable
      end
  | MapClear m =>
      match maps σ !! m with
      | None => Done () σ
      | Some _ => Done () (set_maps <[m := []]> σ)
      end
  | MapLen m =>
      Done (Z.of_nat (length (default [] (maps σ !! m)))) σ
  | MapRange m =>
      let em := default [] (maps σ !! m) in
      Done (iteration (entropy σ) (ticks σ) em) (advance (length em) σ)
  | MakeSlice n c =>
      if decide (n ≤ c)
      then Done (Slice (brk σ) n c)
                (bump (set_arrays <[brk σ := replicate c VNil]> σ))
      else Raise bad_makeslice
  | Append s x =>
      match arrays σ !! ptr s with
      | Some arr =>
          if decide (len s < cap s)
          then Done (Slice (ptr s) (S (len s)) (cap s))
                    (set_arrays <[ptr s := <[len s := x]> arr]> σ)
          else
            let c := S (2 * cap s) in
            Done (Slice (brk σ) (S (len s)) c)
                 (bump (set_arrays
                    <[brk σ := take (len s) arr ++ x :: replicate (c - S (len s)) VNil]>
                    σ))
      | None =>
          Done (Slice (brk σ) 1 1) (bump (set_arrays <[brk σ := [x]]> σ))
      end
  end.

(** ** Programs *)

(** A function body: a sequence of actions, each continued with its
    result, ending in a return or a panic.  [Defer d body] is [body]
    with the call [d] deferred: [d] runs when [body] returns and also
    when it panics. *)
Inductive prog (A : Type) : Type :=
| Ret (a : A)
| Panic (e : string)
| Act {R : Type} (a : action R) (k : R → prog A)
| Defer (d : action unit) (body : prog A).
Arguments Ret {A} a.
Arguments Panic {A} e.
Arguments Act {A R} a k.
Arguments Defer {A} d body.

Declare Scope prog_scope.
Delimit Scope prog_scope with prog.
Bind Scope prog_scope with prog.
Notation "'call' a 'as' x ; k" := (Act a (λ x, k%prog))
  (at level 10, a at level 9, x name, k at level 200,
   format "'[v' 'call'  a  'as'  x ; '/' k ']'") : prog_scope.
Notation "'call' a ; k" := (Act a (λ _, k%prog))
  (at level 10, a at level 9, k at level 200,
   format "'[v' 'call'  a ; '/' k ']'") : prog_scope.
Notation "'defer' d ; k" := (Defer d k%prog)
  (at level 10, d at level 9, k at level 200,
   format "'[v' 'defer'  d ; '/' k ']'") : prog_scope.

(** How a call ends when it runs alone. *)
Inductive outcome (A : Type) : Type :=
| Returns (a : A) (σ : heap)
| Panics (e : string) (σ : heap)
| Blocks.
Arguments Returns {A} a σ.
Arguments Panics {A} e σ.
Arguments Blocks {A}.

(** Running a program to its end, with no other goroutine. *)
Fixpoint run {A} (p : prog A) (σ : heap) : outcome A :=
  match p with
  | Ret a => Returns a σ
  | Panic e => Panics e σ
  | Act a k =>
      match do_action a σ with
      | Done r σ' => run (k r) σ'
      | Raise e => Panics e σ
      | Wait => Blocks
      end
  | Defer d body =>
      match run body σ with
      | Returns a σ' =>
          match do_action d σ' with
          | Done _ σ'' => Returns a σ''
          | Raise e => Panics e σ'
          | Wait => Blocks
          end
      | Panics e σ' =>
          match do_action d σ' with
          | Done _ σ'' => Panics e σ''
          | Raise e' => Panics e' σ'
          | Wait => Blocks
          end
      | Blocks => Blocks
      end
  end.

End Runtime.

(* ===================================================================== *)
(** * Package anycache *)
(* ===================================================================== *)

Module AnyCache.
Import GoValue GoMap Runtime.
Local Open Scope Z_scope.
Local Open Scope prog_scope.

(** All available package errors. *)
Inductive error : Type :=
| ErrMinCacheSize
| ErrMaxCacheSize.

Definition maxCacheSize : Z := 5 * 100 * 1024 * 1024.

(** [AnyCache] holds two references.  The struct is never assigned to
    after [New], so a [*AnyCache] receiver and an [AnyCache] receiver
    see the same two references. *)
Record AnyCache : Type := mkAnyCache {
  items : loc;
  mu : loc
}.

(** Item represents a "record" in the cache. *)
Record Item : Type := mkItem {
  Key : value;
  Value : value
}.

(** [Item{}] *)
Definition zero_Item : Item := mkItem VNil VNil.

(** New returns an AnyCache with the given capacity. *)
Definition New (capacity : Z) : prog (option AnyCache * option error) :=
  if capacity >=? maxCacheSize then
    Ret (None, Some ErrMaxCacheSize)
  else if capacity <? 1 then
    Ret (None, Some ErrMinCacheSize)
  else
    call (MakeMap capacity) as items;
    call NewMutex as mu;
    Ret (Some (mkAnyCache items mu), None).

(** Set sets an item in the cache, returning the Item as well as a bool
    representing whether the set overwrote another value.  ([Set] is a
    reserved word here, hence the underscore.) *)
Definition Set_ (ac : AnyCache) (key val : value) : prog (Item * bool) :=
  let overwritten := false in
  call (MutexLock (mu ac));
  defer (MutexUnlock (mu ac));
  call (MapIndex (items ac) key) as r;
  let overwritten := if r is Some _ then true else overwritten in
  call (MapAssign (items ac) key val);
  Ret (mkItem key val, overwritten).

(** Get gets an Item by its key and returns both the Item as well as
    whether the call was a cache "hit". *)
Definition Get (ac : AnyCache) (key : value) : prog (Item * bool) :=
  call (MutexLock (mu ac));
  defer (MutexUnlock (mu ac));
  call (MapIndex (items ac) key) as r;
  match r with
  | None => Ret (zero_Item, false)
  | Some item => Ret (mkItem key item, true)
  end.

(** The loop [for k := range ac.items { ret = append(ret, k) }]. *)
Fixpoint Keys_loop (it : list entry) (ret : slice) : prog slice :=
  match it with
  | [] => Ret ret
  | (k, _) :: it' =>
      call (Append ret k) as ret;
      Keys_loop it' ret
  end.

Definition Keys (ac : AnyCache) : prog slice :=
  call (MutexLock (mu ac));
  defer (MutexUnlock (mu ac));
  call (MapLen (items ac)) as n;
  call (MakeSlice 0 (Z.to_nat n)) as ret;
  call (MapRange (items ac)) as it;
  Keys_loop it ret.

(** Flush clears the AnyCache's inner map. *)
Definition Flush (ac : AnyCache) : prog unit :=
  call (MutexLock (mu ac));
  defer (MutexUnlock (mu ac));
  call (MapClear (items ac));
  Ret ().

(** Len retieves the total count of items in the cache. *)
Definition Len (ac : AnyCache) : prog Z :=
  call (MutexLock (mu ac));
  defer (MutexUnlock (mu ac));
  call (MapLen (items ac)) as n;
  Ret n.

(** ** The state of a cache *)

(** The entries behind the [items] reference. *)
Definition entries (ac : AnyCache) (σ : heap) : gomap :=
  default [] (maps σ !! items ac).

(** A cache at rest: [items] is a map in good order and [mu] is a
    mutex that nobody holds. *)
Definition store_ok (ac : AnyCache) (σ : heap) : bool :=
  match maps σ !! items ac, mutexes σ !! mu ac with
  | Some em, Some false => map_wf em
  | _, _ => false
  end.

(** ** Histories of calls *)

(** A call of one of the five methods. *)
Inductive op : Type :=
| OpSet (key val : value)
| OpGet (key : value)
| OpKeys
| OpFlush
| OpLen.

(** The heap a call leaves when it returns. *)
Definition returned {A} (r : outcome A) : option heap :=
  match r with
  | Returns _ σ => Some σ
  | _ => None
  end.

Definition run_op (ac : AnyCache) (o : op) (σ : heap) : option heap :=
  match o with
  | OpSet key val => returned (run (Set_ ac key val) σ)
  | OpGet key => returned (run (Get ac key) σ)
  | OpKeys => returned (run (Keys ac) σ)
  | OpFlush => returned (run (Flush ac) σ)
  | OpLen => returned (run (Len ac) σ)
  end.

(** The calls of [os] one after the other, each one returning. *)
Fixpoint run_ops (ac : AnyCache) (os : list op) (σ : heap) : option heap :=
  match os with
  | [] => Some σ
  | o :: os' =>
      match run_op ac o σ with
      | Some σ' => run_ops ac os' σ'
      | None => None
      end
  end.

(** The key arguments of a call are hashable. *)
Definition op_hashable (o : op) : bool :=
  match o with
  | OpSet key _ | OpGet key => hashable key
  | _ => true
  end.

(** What a call does to the entries. *)
Definition op_entries (o : op) (em : gomap) : gomap :=
  match o with
  | OpSet key val => map_assign em key val
  | OpFlush => []
  | _ => em
  end.

(** The call stores under a key equal to [k]. *)
Definition stores (k : value) (o : op) : bool :=
  match o with
  | OpSet key _ => go_eq key k
  | _ => false
  end.

Definition is_flush (o : op) : bool :=
  match o with
  | OpFlush => true
  | _ => false
  end.

(** Backing arrays allocated so far stay as they are. *)
Definition arrays_kept (σ σ' : heap) : Prop :=
  (brk σ ≤ brk σ')%positive ∧
  ∀ a, (a < brk σ)%positive → arrays σ' !! a = arrays σ !! a.

(** What a call returned, if it did. *)
Definition result {A} (r : outcome A) : option A :=
  match r with
  | Returns a _ => Some a
  | _ => None
  end.

(** [Set(0, nil)], [Set(1, nil)], ..., [Set(n-1, nil)]. *)
Definition int_keys (n : nat) : list op :=
  (λ i, OpSet (VInt (Z.of_nat i)) VNil) <$> seq 0 n.

(** ** Sample values *)

(** An empty heap, a new cache on it, and the cache once it holds
    ["a"] ↦ [1]. *)
Definition heap0 : heap := Heap ∅ ∅ ∅ 1%positive (λ n, n) 0.

Definition cache1 : AnyCache := mkAnyCache 1%positive 2%positive.

Definition heap_new : heap :=
  Heap {[1%positive := []]} {[2%positive := false]} ∅ 3%positive (λ n, n) 0.

Definition heap1 : heap :=
  Heap {[1%positive := [(VString "a", VInt 1)]]} {[2%positive := false]} ∅
    3%positive (λ n, n) 0.

Definition cmpUser (name : string) (age : Z) : value :=
  VStruct "cmpUser" [VString name; VInt age].

(** A struct with a leading field of type [[0]func()]. *)
Definition incmpUser (name : string) (age : Z) : value :=
  VStruct "incmpUser" [VArray TFunc []; VString name; VInt age].

End AnyCache.

(* ===================================================================== *)
(** * Goroutines *)
(* ===================================================================== *)

Module Concurrent.
Import GoValue GoMap Runtime AnyCache.

(** One step of a goroutine: its next action, or the deferred call once
    the body has returned or panicked.  [None]: the goroutine is done,
    or it waits for the mutex. *)
Fixpoint thread_step {A} (p : prog A) (σ : heap) : option (prog A * heap) :=
  match p with
  | Ret _ | Panic _ => None
  | Act a k =>
      match do_action a σ with
      | Done r σ' => Some (k r, σ')
      | Raise e => Some (Panic e, σ)
      | Wait => None
      end
  | Defer d body =>
      match body with
      | Ret a =>
          match do_action d σ with
          | Done _ σ' => Some (Ret a, σ')
          | Raise e => Some (Panic e, σ)
          | Wait => None
          end
      | Panic e =>
          match do_action d σ with
          | Done _ σ' => Some (Panic e, σ')
          | Raise e' => Some (Panic e', σ)
          | Wait => None
          end
      | _ =>
          match thread_step body σ with
          | Some (body', σ') => Some (Defer d body', σ')
          | None => None
          end
      end
  end.

(** The goroutine is done. *)
Definition final {A} (p : prog A) : bool :=
  match p with
  | Ret _ | Panic _ => true
  | _ => false
  end.

(** What a call of one of the five methods returns. *)
Inductive retval : Type :=
| RItem (item : Item) (ok : bool)
| RKeys (s : slice)
| RUnit
| RInt (n : Z).

(** A program with its result converted. *)
Fixpoint pmap {A B} (f : A → B) (p : prog A) : prog B :=
  match p with
  | Ret a => Ret (f a)
  | Panic e => Panic e
  | Act a k => Act a (λ r, pmap f (k r))
  | Defer d body => Defer d (pmap f body)
  end.

(** The body of the goroutine [go ac.Method(args)]. *)
Definition call_prog (ac : AnyCache) (o : op) : prog retval :=
  match o with
  | OpSet key val => pmap (λ r, RItem r.1 r.2) (Set_ ac key val)
  | OpGet key => pmap (λ r, RItem r.1 r.2) (Get ac key)
  | OpKeys => pmap RKeys (Keys ac)
  | OpFlush => pmap (λ _, RUnit) (Flush ac)
  | OpLen => pmap RInt (Len ac)
  end.

(** The goroutines and the heap they share. *)
Abbreviation pool := (list (prog retval)).
Abbreviation state := (heap * list (prog retval))%type.

(** Any goroutine that can take a step may take the next one. *)
Inductive pool_step : relation state :=
| pool_step_at σ ts i p p' σ' :
    ts !! i = Some p →
    thread_step p σ = Some (p', σ') →
    pool_step (σ, ts) (σ', <[i := p']> ts).

(** One goroutine per call. *)
Definition spawn (ac : AnyCache) (os : list op) : pool := call_prog ac <$> os.

(** ** The lock discipline *)

(** Actions on maps and slices, as opposed to actions on mutexes. *)
Definition data_action {R} (a : action R) : bool :=
  match a with
  | MutexLock _ | MutexUnlock _ | NewMutex => false
  | _ => true
  end.

(** The map an action reads or writes. *)
Definition action_map {R} (a : action R) : option loc :=
  match a with
  | MapIndex m _ | MapAssign m _ _ | MapClear m | MapLen m | MapRange m =>
      Some m
  | _ => None
  end.

(** A body that takes and releases no mutex and defers nothing. *)
Fixpoint lock_free {A} (p : prog A) : Prop :=
  match p with
  | Ret _ | Panic _ => True
  | Act a k => data_action a = true ∧ ∀ r, lock_free (k r)
  | Defer _ _ => False
  end.

(** The goroutine holds [mu]: it runs a body with [mu.Unlock()]
    deferred. *)
Definition inside (mu : loc) {A} (p : prog A) : Prop :=
  match p with
  | Defer d body => d = MutexUnlock mu ∧ lock_free body
  | _ => False
  end.

Definition holding {A} (p : prog A) : bool :=
  match p with
  | Defer _ _ => true
  | _ => false
  end.

(** The next step of the goroutine reads or writes map [m]. *)
Fixpoint accessing (m : loc) {A} (p : prog A) : bool :=
  match p with
  | Act a _ => bool_decide (action_map a = Some m)
  | Defer d body =>
      match body with
      | Ret _ | Panic _ => bool_decide (action_map d = Some m)
      | _ => accessing m body
      end
  | _ => false
  end.

(** ** Sequential histories with results *)

(** The calls of [h] one after the other from [σ] to [σ']; each call is
    paired with the state its goroutine ended in, [Ret] of what the call
    returns or [Panic] of what it raises. *)
Fixpoint seq_exec (ac : AnyCache) (h : list (op * prog retval))
    (σ σ' : heap) : Prop :=
  match h with
  | [] => σ = σ'
  | (o, p) :: h' =>
      ∃ σ1, final p = true ∧
            run (call_prog ac o) σ = run p σ1 ∧
            seq_exec ac h' σ1 σ'
  end.

(** The calls of the goroutines that are done, each with its end. *)
Fixpoint finished (os : list op) (ts : pool) : list (op * prog retval) :=
  match os, ts with
  | o :: os', p :: ts' =>
      if final p then (o, p) :: finished os' ts' else finished os' ts'
  | _, _ => []
  end.

(** ** The invariant of a pool of calls *)

(** A goroutine that runs the call [o] has not started, holds the
    mutex, or is done. *)
Definition thread_inv (ac : AnyCache) (o : op) (p : prog retval) : Prop :=
  p = call_prog ac o ∨ inside (mu ac) p ∨ final p = true.

(** A pool of the calls [os] started on [σ0].  The calls that are done
    make a sequential history from [σ0] to a heap [σq] with the cache at
    rest.  Either no goroutine holds the mutex and the heap is [σq]; or
    exactly one does, and left alone from here it would end as its call
    ends when run alone from [σq]. *)
Record pool_inv (ac : AnyCache) (σ0 : heap) (os : list op) (s : state) : Prop := {
  inv_threads : Forall2 (thread_inv ac) os s.2;
  inv_history : ∃ h σq,
    h ≡ₚ finished os s.2 ∧
    seq_exec ac h σ0 σq ∧
    store_ok ac σq = true ∧
    ((Forall (λ p, holding p = false) s.2 ∧ s.1 = σq) ∨
     (∃ i o p,
        os !! i = Some o ∧ s.2 !! i = Some p ∧ inside (mu ac) p ∧
        (∀ j q, s.2 !! j = Some q → holding q = true → j = i) ∧
        mutexes s.1 !! mu ac = Some true ∧
        run p s.1 = run (call_prog ac o) σq))
}.

(** ** Measures *)

(** The steps a goroutine takes when it is left to run alone. *)
Fixpoint cost {A} (p : prog A) (σ : heap) : nat :=
  match p with
  | Ret _ | Panic _ => 0
  | Act a k =>
      match do_action a σ with
      | Done r σ' => S (cost (k r) σ')
      | Raise _ => 1
      | Wait => 0
      end
  | Defer d body =>
      cost body σ +
      match run body σ with
      | Returns _ σ' | Panics _ σ' =>
          match do_action d σ' with
          | Wait => 0
          | _ => 1
          end
      | Blocks => 0
      end
  end.

(** The goroutines that have not started. *)
Definition idle_count (ts : pool) : nat :=
  sum_list ((λ p, if final p || holding p then 0 else 1) <$> ts).

(** The steps left to the goroutines that hold the mutex. *)
Definition held_cost (σ : heap) (ts : pool) : nat :=
  sum_list ((λ p, if holding p then cost p σ else 0) <$> ts).

(** [go ac.Set(k, v)] for each of the pairs. *)
Definition set_all (kvs : list (value * value)) : list op :=
  (λ kv, OpSet kv.1 kv.2) <$> kvs.

(** The pairs that the [Set] calls of a history store. *)
Definition pairs_of (os : list op) : list (value * value) :=
  omap (λ o, if o is OpSet k v then Some (k, v) else None) os.

(** What a call does to the entries, a panic leaving them alone. *)
Definition op_effect (em : gomap) (o : op) : gomap :=
  if op_hashable o then op_entries o em else em.

(** How the goroutine of a call ends: it returns when the key is
    comparable, and panics when it is not. *)
Definition ends_well (x : op * prog retval) : Prop :=
  if op_hashable x.1 then ∃ r, x.2 = Ret r else x.2 = Panic unhashable.

End Concurrent.

(* ===================================================================== *)
(** * Histories, several caches, callers *)
(* ===================================================================== *)

Module Behaviour.
Import GoValue GoMap Runtime AnyCache Concurrent.

(** What a history leaves under the keys equal to [k], starting from
    [acc]: the value of the latest [Set] under such a key, nothing
    after a [Flush]. *)
Definition writes (k : value) (acc : option value) (os : list op) : option value :=
  foldl (λ acc o,
           match o with
           | OpSet key v => if go_eq key k then Some v else acc
           | OpFlush => None
           | _ => acc
           end) acc os.

Definition last_write (k : value) (os : list op) : option value :=
  writes k None os.

(** The calls of a history that follow its last [Flush]. *)
Definition since_flush (os : list op) : list op :=
  foldl (λ acc o, if is_flush o then [] else acc ++ [o]) [] os.

(** Calls on several caches, one after the other. *)
Fixpoint run_mixed (h : list (AnyCache * op)) (σ : heap) : option heap :=
  match h with
  | [] => Some σ
  | (ac, o) :: h' =>
      match run_op ac o σ with
      | Some σ' => run_mixed h' σ'
      | None => None
      end
  end.

#[global] Instance AnyCache_eq_dec : EqDecision AnyCache.
Proof. solve_decision. Defined.

(** The calls of a mixed history that are made on [ac]. *)
Definition calls_on (ac : AnyCache) (h : list (AnyCache * op)) : list op :=
  (filter (λ x, x.1 = ac) h).*2.

(** The two caches share neither map nor mutex. *)
Definition separate (ac1 ac2 : AnyCache) : Prop :=
  items ac1 ≠ items ac2 ∧ mu ac1 ≠ mu ac2.

(** ** What concurrent callers get back *)

(** What the call [o] returns on a cache that holds [em].  The elements
    of a slice that [Keys] returned are read in the heap [σ]. *)
Definition answer (σ : heap) (em : gomap) (o : op) (r : retval) : Prop :=
  match o with
  | OpSet key val => r = RItem (mkItem key val) (has_key em key)
  | OpGet key =>
      r = match map_index em key with
          | Some item => RItem (mkItem key item) true
          | None => RItem zero_Item false
          end
  | OpKeys =>
      ∃ s, r = RKeys s ∧ len s = length em ∧ slice_elems σ s ≡ₚ keys em
  | OpFlush => r = RUnit
  | OpLen => r = RInt (Z.of_nat (length em))
  end.

(** The calls of a history returned, one after the other from the
    entries [em], what the methods return. *)
Fixpoint seq_answers (σ : heap) (em : gomap) (h : list (op * prog retval)) : Prop :=
  match h with
  | [] => True
  | (o, p) :: h' =>
      (∃ r, p = Ret r ∧ answer σ em o r) ∧ seq_answers σ (op_entries o em) h'
  end.

(** [Get], [Keys] and [Len]. *)
Definition is_read (o : op) : bool :=
  match o with
  | OpGet _ | OpKeys | OpLen => true
  | _ => false
  end.

(** The goroutine returned an [Item] with the flag set: a hit of [Get],
    an overwrite of [Set]. *)
Definition flagged (p : prog retval) : bool :=
  match p with
  | Ret (RItem _ ok) => ok
  | _ => false
  end.

(** The goroutine returned an [Item] with the flag unset. *)
Definition unflagged (p : prog retval) : bool :=
  match p with
  | Ret (RItem _ ok) => negb ok
  | _ => false
  end.

Definition tally {A} (f : A → bool) (l : list A) : nat :=
  length (List.filter f l).

(** The number of [Set] calls. *)
Definition sets (os : list op) : nat := length (pairs_of os).

(** [em] holds a key for each key of [em0], and at most [n] keys more. *)
Definition grown (em0 em : gomap) (n : nat) : Prop :=
  (∀ k, has_key em0 k = true → has_key em k = true) ∧
  length em0 ≤ length em ≤ length em0 + n.

(** The entries that [n] calls of [Set] under the key [k] add to [em]:
    one if none is there, none if one is; one each if [k] is a key that
    differs from itself. *)
Definition newcomers (k : value) (em : gomap) (n : nat) : nat :=
  if go_eq k k then (if has_key em k then 0 else min 1 n) else n.

End Behaviour.

(* ===================================================================== *)
(** * Properties of the embedding *)
(* ===================================================================== *)

Import GoValue GoMap Runtime AnyCache.

(** ** Keys: [==] is a partial equivalence *)

Section value_facts.

(** Induction over values that also descends into arrays and structs. *)
Lemma value_rect' (P : value → Type) (Q : list value → Type) :
  P VNil →
  (∀ b, P (VBool b)) →
  (∀ n, P (VInt n)) →
  (∀ s, P (VString s)) →
  (∀ f, P (VFloat64 f)) →
  (∀ c, P (VFunc c)) →
  (∀ t l, Q l → P (VArray t l)) →
  (∀ n l, Q l → P (VStruct n l)) →
  Q [] →
  (∀ x l, P x → Q l → Q (x :: l)) →
  ∀ v, P v.
Proof.
  intros HNil HBool HInt HStr HFl HFn HArr HSt Hnil Hcons.
  fix IH 1. intros [|b|n|s|f|c|t l|n l].
  - exact HNil.
  - apply HBool.
  - apply HInt.
  - apply HStr.
  - apply HFl.
  - apply HFn.
  - apply HArr. induction l as [|x l IHl]; [exact Hnil|].
    apply Hcons; [apply IH|exact IHl].
  - apply HSt. induction l as [|x l IHl]; [exact Hnil|].
    apply Hcons; [apply IH|exact IHl].
Defined.

Lemma go_eq_array t u xs ys :
  go_eq (VArray t xs) (VArray u ys) = bool_decide (t = u) && go_eq_list xs ys.
Proof. reflexivity. Qed.

Lemma go_eq_struct n m xs ys :
  go_eq (VStruct n xs) (VStruct m ys) = String.eqb n m && go_eq_list xs ys.
Proof. reflexivity. Qed.

Lemma SFeqb_spec a b :
  SFeqb a b = true ↔
  match a, b with
  | S754_zero _, S754_zero _ => True
  | S754_infinity s, S754_infinity s' => s = s'
  | S754_finite s m e, S754_finite s' m' e' => s = s' ∧ m = m' ∧ e = e'
  | _, _ => False
  end.
Proof.
  unfold SFeqb, SFcompare.
  destruct a as [s|s| |s m e], b as [s'|s'| |s' m' e'];
    try destruct s; try destruct s'; simpl;
    try (split; [discriminate|tauto || done]);
    try (split; done);
    change (PosDef.Pos.compare_cont Eq m m') with (Pos.compare m m');
    destruct (Z.compare_spec e e'), (Pos.compare_spec m m'); simpl;
    split; try discriminate; try (intros (? & ? & ?); lia || discriminate);
    subst; done.
Qed.

Lemma SFeqb_sym a b : SFeqb a b = SFeqb b a.
Proof.
  apply eq_true_iff_eq. rewrite !SFeqb_spec.
  destruct a, b; intuition congruence.
Qed.

Lemma SFeqb_trans a b c : SFeqb a b = true → SFeqb b c = true → SFeqb a c = true.
Proof.
  rewrite !SFeqb_spec. destruct a, b, c; intuition congruence.
Qed.

Lemma go_eq_sym x y : go_eq x y = go_eq y x.
Proof.
  revert y. induction x as [|b|n|s|f|c|t l IHl|n l IHl| |x l IHx IHl]
    using value_rect'
    with (Q := fun l => ∀ l', go_eq_list l l' = go_eq_list l' l).
  - by intros [].
  - intros []; simpl; try done. by destruct b, b0.
  - intros []; simpl; try done. apply Z.eqb_sym.
  - intros []; simpl; try done. apply String.eqb_sym.
  - intros []; simpl; try done. apply SFeqb_sym.
  - by intros [].
  - intros []; try done. rewrite !go_eq_array, IHl. f_equal.
    apply bool_decide_ext. naive_solver.
  - intros []; try done. rewrite !go_eq_struct, IHl. f_equal.
    apply String.eqb_sym.
  - by intros [].
  - intros [|y l']; simpl; [done|]. by rewrite IHx, IHl.
Qed.

Lemma go_eq_trans x y z : go_eq x y = true → go_eq y z = true → go_eq x z = true.
Proof.
  revert y z. induction x as [|b|n|s|f|c|t l IHl|n l IHl| |x l IHx IHl]
    using value_rect'
    with (Q := fun l => ∀ l' l'', go_eq_list l l' = true →
                 go_eq_list l' l'' = true → go_eq_list l l'' = true).
  - intros [] []; simpl; done.
  - intros [] []; simpl; try done. destruct b, b0, b1; done.
  - intros [] []; simpl; try done. rewrite !Z.eqb_eq. congruence.
  - intros [] []; simpl; try done. rewrite !String.eqb_eq. congruence.
  - intros [] []; simpl; try done. apply SFeqb_trans.
  - intros [] []; simpl; done.
  - intros [] []; try done. rewrite !go_eq_array, !andb_true_iff.
    rewrite !bool_decide_eq_true. intros [-> H1] [-> H2]. eauto.
  - intros [] []; try done. rewrite !go_eq_struct, !andb_true_iff.
    rewrite !String.eqb_eq. intros [-> H1] [-> H2]. eauto.
  - intros [] []; simpl; done.
  - intros [|y l'] [|z l'']; simpl; try done.
    rewrite !andb_true_iff. intros [H1 H2] [H3 H4]. eauto.
Qed.

(** Keys equal to a common third key are both equal to themselves. *)
Lemma go_eq_reflexive_l x y : go_eq x y = true → reflexive x = true.
Proof.
  intros H. unfold reflexive. apply (go_eq_trans x y x); [done|].
  by rewrite go_eq_sym.
Qed.

Lemma go_eq_reflexive_r x y : go_eq x y = true → reflexive y = true.
Proof. rewrite go_eq_sym. apply go_eq_reflexive_l. Qed.

(** Equal keys cannot be told apart by comparison with a third. *)
Lemma go_eq_congr_r x y z : go_eq x y = true → go_eq z x = go_eq z y.
Proof.
  intros H. apply eq_true_iff_eq. split; intros Hz.
  - by apply (go_eq_trans z x y).
  - apply (go_eq_trans z y x); [done|]. by rewrite go_eq_sym.
Qed.

Lemma go_eq_congr_l x y z : go_eq x y = true → go_eq x z = go_eq y z.
Proof.
  intros H. rewrite (go_eq_sym x z), (go_eq_sym y z). by apply go_eq_congr_r.
Qed.

(** A hashable key is equal to itself unless it contains a NaN. *)
Lemma reflexive_no_nan v : hashable v = true → reflexive v = negb (has_nan v).
Proof.
  unfold reflexive.
  induction v as [|b|n|s|f|c|t l IHl|n l IHl| |x l IHx IHl]
    using value_rect'
    with (Q := fun l => forallb hashable l = true →
                 go_eq_list l l = negb (existsb has_nan l)).
  - done.
  - intros _. by destruct b.
  - intros _. apply Z.eqb_refl.
  - intros _. apply String.eqb_refl.
  - intros _. destruct f as [s|s| |s m e]; simpl; try done.
    + by destruct s.
    + by apply SFeqb_spec.
  - done.
  - intros [_ Hl]%andb_true_iff. rewrite go_eq_array, IHl by done.
    by rewrite bool_decide_true.
  - intros Hl. rewrite go_eq_struct, IHl by done. by rewrite String.eqb_refl.
  - done.
  - intros [Hx Hl]%andb_true_iff. simpl.
    by rewrite IHx, IHl, negb_orb by done.
Qed.

Lemma no_nan_reflexive v :
  hashable v = true → has_nan v = false → reflexive v = true.
Proof. intros Hv Hn. by rewrite reflexive_no_nan, Hn. Qed.

End value_facts.

(** ** Lookup and assignment *)

Section map_facts.

Lemma map_index_has_key m key : is_Some (map_index m key) ↔ has_key m key = true.
Proof.
  induction m as [|[k v] m IH]; simpl.
  - split; [by intros [? ?]|done].
  - destruct (go_eq k key); simpl; [|done]. split; eauto.
Qed.

Lemma map_index_None m key : map_index m key = None ↔ has_key m key = false.
Proof.
  rewrite <- not_true_iff_false, <- map_index_has_key.
  rewrite eq_None_not_Some. done.
Qed.

Lemma has_key_spec m key :
  has_key m key = true ↔ ∃ k v, (k, v) ∈ m ∧ go_eq k key = true.
Proof.
  unfold has_key. rewrite existsb_exists. split.
  - intros ([k v] & Hin & Heq). exists k, v. by rewrite list_elem_of_In.
  - intros (k & v & Hin & Heq). exists (k, v). by rewrite <- list_elem_of_In.
Qed.

Lemma has_key_congr m k k' : go_eq k k' = true → has_key m k = has_key m k'.
Proof.
  intros H. unfold has_key. induction m as [|[k0 v0] m IH]; simpl; [done|].
  by rewrite IH, (go_eq_congr_r k k').
Qed.

(** A key that differs from itself is never found. *)
Lemma has_key_irreflexive m key : reflexive key = false → has_key m key = false.
Proof.
  intros Hk. apply not_true_iff_false. rewrite has_key_spec.
  intros (k & v & _ & Heq). apply go_eq_reflexive_r in Heq. congruence.
Qed.

Lemma map_index_assign m key v key' :
  map_index (map_assign m key v) key' =
  if go_eq key key' then Some v else map_index m key'.
Proof.
  induction m as [|[k v0] m IH]; simpl.
  - done.
  - destruct (go_eq k key) eqn:Hk; simpl.
    + rewrite (go_eq_congr_l k key key' Hk). by destruct (go_eq key key').
    + rewrite IH. destruct (go_eq k key') eqn:Hk'; [|done].
      destruct (go_eq key key') eqn:Hkk; [|done].
      rewrite (go_eq_congr_r key key' k Hkk) in Hk.
      congruence.
Qed.

Lemma has_key_assign m key v key' :
  has_key (map_assign m key v) key' = go_eq key key' || has_key m key'.
Proof.
  apply eq_true_iff_eq.
  rewrite orb_true_iff, <- !map_index_has_key, map_index_assign.
  destruct (go_eq key key'); [|naive_solver]. split; eauto.
Qed.

Lemma length_map_assign m key v :
  length (map_assign m key v) =
  if has_key m key then length m else S (length m).
Proof.
  induction m as [|[k v0] m IH]; simpl; [done|].
  destruct (go_eq k key); simpl; [done|].
  rewrite IH. by destruct (has_key m key).
Qed.

Lemma map_assign_hashable m key v :
  hashable key = true →
  forallb (λ e, hashable e.1) m = true →
  forallb (λ e, hashable e.1) (map_assign m key v) = true.
Proof.
  intros Hk. induction m as [|[k v0] m IH]; simpl.
  - by rewrite Hk.
  - rewrite andb_true_iff. intros [H1 H2].
    destruct (go_eq k key); simpl; rewrite ?Hk, ?H1, ?H2; auto.
Qed.

Lemma map_assign_distinct m key v :
  distinct_keys m = true → distinct_keys (map_assign m key v) = true.
Proof.
  induction m as [|[k v0] m IH]; simpl; [done|].
  rewrite andb_true_iff, negb_true_iff. intros [H1 H2].
  destruct (go_eq k key) eqn:Hk; simpl.
  - rewrite <- (has_key_congr m k key Hk), H1. done.
  - rewrite has_key_assign, H1, IH by done.
    rewrite go_eq_sym, Hk. done.
Qed.

Lemma map_assign_wf m key v :
  hashable key = true → map_wf m = true → map_wf (map_assign m key v) = true.
Proof.
  unfold map_wf. rewrite !andb_true_iff. intros Hk [H1 H2].
  split; [by apply map_assign_hashable|by apply map_assign_distinct].
Qed.

(** The new key is stored as given, with the new value. *)
Lemma elem_of_map_assign m key v : (key, v) ∈ map_assign m key v.
Proof.
  induction m as [|[k v0] m IH]; simpl; [by left|].
  destruct (go_eq k key); [by left|by right].
Qed.

(** Entries under other keys are kept as they are. *)
Lemma elem_of_map_assign_ne m key v k' v' :
  go_eq k' key = false → (k', v') ∈ map_assign m key v ↔ (k', v') ∈ m ∨ (k', v') = (key, v).
Proof.
  intros Hne. induction m as [|[k v0] m IH]; simpl.
  - rewrite list_elem_of_singleton. set_solver.
  - destruct (go_eq k key) eqn:Hk.
    + rewrite !elem_of_cons. split; [naive_solver|].
      intros [[H|H]|H]; auto. simplify_eq. congruence.
    + rewrite !elem_of_cons, IH. naive_solver.
Qed.

Lemma elem_of_map_assign_inv m key v k' v' :
  (k', v') ∈ map_assign m key v → (k', v') ∈ m ∨ (k', v') = (key, v).
Proof.
  induction m as [|[k v0] m IH]; simpl.
  - rewrite list_elem_of_singleton. auto.
  - destruct (go_eq k key); rewrite !elem_of_cons; naive_solver.
Qed.

Lemma has_key_keys m k : has_key m k = existsb (λ k', go_eq k' k) (keys m).
Proof.
  unfold has_key, keys. induction m as [|[k0 v0] m IH]; simpl; [done|].
  by rewrite IH.
Qed.

Lemma distinct_keys_distinct m : distinct_keys m = distinct (keys m).
Proof.
  induction m as [|[k v] m IH]; simpl; [done|].
  by rewrite IH, has_key_keys.
Qed.

Lemma existsb_Permutation {A} (f : A → bool) l l' :
  l ≡ₚ l' → existsb f l = existsb f l'.
Proof.
  induction 1; simpl; try congruence.
  by destruct (f x), (f y).
Qed.

(** Being pairwise unequal does not depend on the order. *)
Lemma distinct_Permutation ks ks' : ks ≡ₚ ks' → distinct ks = distinct ks'.
Proof.
  induction 1 as [|k ks ks' Hp IH|k1 k2 ks|ks1 ks2 ks3 _ IH1 _ IH2]; simpl.
  - done.
  - by rewrite IH, (existsb_Permutation _ _ _ Hp).
  - rewrite (go_eq_sym k1 k2).
    destruct (go_eq k2 k1), (existsb (λ k', go_eq k' k1) ks),
      (existsb (λ k', go_eq k' k2) ks); done.
  - congruence.
Qed.

Lemma map_wf_hashable m k v : map_wf m = true → (k, v) ∈ m → hashable k = true.
Proof.
  unfold map_wf. rewrite andb_true_iff, forallb_forall. intros [H _] Hin.
  by apply (H (k, v)), list_elem_of_In.
Qed.

Lemma map_wf_distinct m : map_wf m = true → distinct (keys m) = true.
Proof.
  unfold map_wf. rewrite andb_true_iff, distinct_keys_distinct. by intros [_ ?].
Qed.

End map_facts.

(** ** The order of an iteration *)

Section runtime_facts.

(** Whatever is drawn, every entry is visited exactly once. *)
Lemma visit_Permutation {A} rnd (l : list A) : ∀ t n,
  n = length l → visit rnd t n l ≡ₚ l.
Proof.
  remember (length l) as m eqn:Hm. revert l Hm.
  induction m as [|m IH]; intros l Hm t n ->; simpl.
  - by destruct l.
  - assert (Hlt : rnd t `mod` length l < length l)
      by (apply Nat.mod_upper_bound; lia).
    destruct (lookup_lt_is_Some_2 l _ Hlt) as [x Hx].
    rewrite Hx. etrans; [|symmetry; apply (delete_Permutation l _ x Hx)].
    constructor. apply IH; [|done].
    rewrite length_delete by eauto. lia.
Qed.

Lemma iteration_Permutation {A} rnd t (l : list A) : iteration rnd t l ≡ₚ l.
Proof. by apply visit_Permutation. Qed.

Lemma length_iteration {A} rnd t (l : list A) :
  length (iteration rnd t l) = length l.
Proof. by rewrite iteration_Permutation. Qed.

End runtime_facts.

(** ** The methods in closed form, and histories *)

Section cache_facts.
Local Open Scope Z_scope.
Local Open Scope prog_scope.

Lemma store_ok_inv ac σ :
  store_ok ac σ = true →
  maps σ !! items ac = Some (entries ac σ) ∧
  map_wf (entries ac σ) = true ∧
  mutexes σ !! mu ac = Some false.
Proof.
  unfold store_ok, entries.
  destruct (maps σ !! items ac) as [em|]; [|done].
  destruct (mutexes σ !! mu ac) as [[]|]; done.
Qed.

(** Taking and releasing a free mutex leaves the heap as it was. *)
Lemma unlock_lock mu σ :
  mutexes σ !! mu = Some false →
  set_mutexes <[mu := false]> (set_mutexes <[mu := true]> σ) = σ.
Proof.
  intros H. destruct σ as [ms mx ar b e t]. unfold set_mutexes; simpl in *.
  f_equal. rewrite insert_insert_eq. by apply insert_id.
Qed.

Lemma set_mutexes_set_maps f g σ :
  set_mutexes f (set_maps g σ) = set_maps g (set_mutexes f σ).
Proof. done. Qed.

Lemma run_Set ac σ key val :
  store_ok ac σ = true →
  run (Set_ ac key val) σ =
  if hashable key
  then Returns (mkItem key val, has_key (entries ac σ) key)
         (set_maps <[items ac := map_assign (entries ac σ) key val]> σ)
  else Panics unhashable σ.
Proof.
  intros (Hm & _ & Hmu)%store_ok_inv.
  unfold Set_. simpl. rewrite Hmu. simpl.
  destruct (hashable key) eqn:Hk; simpl.
  - rewrite Hm. simpl. rewrite lookup_insert_eq.
    rewrite set_mutexes_set_maps, unlock_lock by done.
    f_equal. f_equal. fold (entries ac σ).
    destruct (map_index (entries ac σ) key) eqn:Hi.
    + symmetry. apply map_index_has_key. by rewrite Hi.
    + symmetry. by apply map_index_None.
  - rewrite lookup_insert_eq. by rewrite unlock_lock.
Qed.

Lemma run_Get ac σ key :
  store_ok ac σ = true →
  run (Get ac key) σ =
  if hashable key
  then Returns
         match map_index (entries ac σ) key with
         | Some item => (mkItem key item, true)
         | None => (zero_Item, false)
         end σ
  else Panics unhashable σ.
Proof.
  intros (Hm & _ & Hmu)%store_ok_inv.
  unfold Get. simpl. rewrite Hmu. simpl.
  destruct (hashable key) eqn:Hk; simpl.
  - fold (entries ac σ).
    change (entries ac (set_mutexes <[mu ac:=true]> σ)) with (entries ac σ).
    destruct (map_index (entries ac σ) key); simpl;
      rewrite lookup_insert_eq, unlock_lock; done.
  - rewrite lookup_insert_eq. by rewrite unlock_lock.
Qed.

Lemma run_Len ac σ :
  store_ok ac σ = true →
  run (Len ac) σ = Returns (Z.of_nat (length (entries ac σ))) σ.
Proof.
  intros (Hm & _ & Hmu)%store_ok_inv.
  unfold Len. simpl. rewrite Hmu. simpl.
  rewrite lookup_insert_eq, unlock_lock; done.
Qed.

Lemma run_Flush ac σ :
  store_ok ac σ = true →
  run (Flush ac) σ = Returns () (set_maps <[items ac := []]> σ).
Proof.
  intros (Hm & _ & Hmu)%store_ok_inv.
  unfold Flush. simpl. rewrite Hmu. simpl. rewrite Hm. simpl.
  rewrite lookup_insert_eq.
  by rewrite set_mutexes_set_maps, unlock_lock.
Qed.

Lemma run_New capacity σ :
  run (New capacity) σ =
  if capacity >=? maxCacheSize then Returns (None, Some ErrMaxCacheSize) σ
  else if capacity <? 1 then Returns (None, Some ErrMinCacheSize) σ
  else Returns (Some (mkAnyCache (brk σ) (Pos.succ (brk σ))), None)
         (bump (set_mutexes <[Pos.succ (brk σ) := false]>
            (bump (set_maps <[brk σ := []]> σ)))).
Proof.
  unfold New. destruct (capacity >=? maxCacheSize); [done|].
  destruct (capacity <? 1); done.
Qed.

(** The loop appends in place while the capacity lasts. *)
Lemma run_Keys_loop it : ∀ ret σ arr,
  arrays σ !! ptr ret = Some arr →
  (len ret + length it ≤ cap ret)%nat →
  (cap ret ≤ length arr)%nat →
  run (Keys_loop it ret) σ =
  Returns (Slice (ptr ret) (len ret + length it) (cap ret))
    (set_arrays
       <[ptr ret := take (len ret) arr ++ it.*1 ++ drop (len ret + length it) arr]>
       σ).
Proof.
  induction it as [|[k v] it IH]; intros [p n c] σ arr Harr Hlen Hcap;
    simpl in *.
  - rewrite !Nat.add_0_r, take_drop.
    f_equal. destruct σ; unfold set_arrays; simpl in *. f_equal.
    by rewrite insert_id.
  - rewrite Harr. destruct (decide (n < c)%nat) as [_|]; [|lia].
    rewrite (IH (Slice p (S n) c) _ (<[n:=k]> arr)); simpl;
      [|apply lookup_insert_eq|lia|rewrite length_insert; lia].
    rewrite !Nat.add_succ_r. f_equal.
    destruct σ; unfold set_arrays; simpl in *. f_equal.
    rewrite insert_insert_eq. f_equal.
    rewrite (take_S_r _ _ k) by (apply list_lookup_insert_eq; lia).
    rewrite take_insert_ge by lia.
    rewrite drop_insert_lt by lia.
    by rewrite <- app_assoc.
Qed.

Lemma run_Keys ac σ :
  store_ok ac σ = true →
  let em := entries ac σ in
  let n := length em in
  run (Keys ac) σ =
  Returns (Slice (brk σ) n n)
    (bump (set_arrays <[brk σ := (iteration (entropy σ) (ticks σ) em).*1]>
       (advance n σ))).
Proof.
  intros (Hm & _ & Hmu)%store_ok_inv em n.
  unfold Keys. simpl. rewrite Hmu. simpl. rewrite Nat2Z.id.
  fold (entries ac σ). fold em. fold n.
  erewrite run_Keys_loop; simpl;
    [|apply lookup_insert_eq|rewrite length_iteration; done
     |by rewrite length_replicate].
  rewrite lookup_insert_eq, length_iteration.
  fold n. rewrite drop_replicate, Nat.sub_diag, app_nil_r. simpl.
  f_equal. destruct σ; unfold set_arrays, set_mutexes, bump, advance; simpl in *.
  f_equal.
  - rewrite insert_insert_eq. by apply insert_id.
  - by rewrite insert_insert_eq.
Qed.

Lemma arrays_kept_refl σ : arrays_kept σ σ.
Proof. split; [lia|done]. Qed.

Lemma arrays_kept_set_maps f σ : arrays_kept σ (set_maps f σ).
Proof. split; simpl; [lia|done]. Qed.

Lemma arrays_kept_trans σ1 σ2 σ3 :
  arrays_kept σ1 σ2 → arrays_kept σ2 σ3 → arrays_kept σ1 σ3.
Proof.
  intros [H1 H2] [H3 H4]. split; [lia|].
  intros a Ha. rewrite H4 by lia. by apply H2.
Qed.

Lemma store_ok_set_maps ac σ em :
  store_ok ac σ = true → map_wf em = true →
  store_ok ac (set_maps <[items ac := em]> σ) = true.
Proof.
  intros (_ & _ & Hmu)%store_ok_inv Hwf. unfold store_ok. simpl.
  by rewrite lookup_insert_eq, Hmu.
Qed.

Lemma entries_set_maps ac σ em :
  entries ac (set_maps <[items ac := em]> σ) = em.
Proof. unfold entries. simpl. by rewrite lookup_insert_eq. Qed.

(** One call on a cache at rest: it returns exactly when its key is
    hashable, and then leaves the cache at rest, with the entries
    changed as [op_entries] says and the arrays allocated before kept. *)
Lemma run_op_spec ac o σ :
  store_ok ac σ = true →
  if op_hashable o
  then ∃ σ', run_op ac o σ = Some σ' ∧
             store_ok ac σ' = true ∧
             entries ac σ' = op_entries o (entries ac σ) ∧
             mutexes σ' = mutexes σ ∧
             arrays_kept σ σ'
  else run_op ac o σ = None.
Proof.
  intros Hok. pose proof (store_ok_inv _ _ Hok) as (Hm & Hwf & Hmu).
  destruct o as [key val|key| | |]; cbn [run_op op_hashable op_entries].
  - rewrite run_Set by done. destruct (hashable key) eqn:Hk; [|done].
    eexists. split; [done|].
    rewrite entries_set_maps.
    split_and!; [|done|done|apply arrays_kept_set_maps].
    apply store_ok_set_maps; [done|]. by apply map_assign_wf.
  - rewrite run_Get by done. destruct (hashable key); [|done].
    eexists. split; [done|]. split_and!; auto using arrays_kept_refl.
  - rewrite run_Keys by done. eexists. split; [done|].
    split_and!; try done.
    split; simpl; [lia|]. intros a Ha.
    rewrite lookup_insert_ne; [done|lia].
  - rewrite run_Flush by done. eexists. split; [done|].
    rewrite entries_set_maps.
    split_and!; [|done|done|apply arrays_kept_set_maps].
    by apply store_ok_set_maps.
  - rewrite run_Len by done. eexists. split; [done|].
    split_and!; auto using arrays_kept_refl.
Qed.

(** A history of calls with hashable keys runs to its end. *)
Lemma run_ops_spec ac os : ∀ σ,
  store_ok ac σ = true →
  forallb op_hashable os = true →
  ∃ σ', run_ops ac os σ = Some σ' ∧
        store_ok ac σ' = true ∧
        entries ac σ' = foldl (λ em o, op_entries o em) (entries ac σ) os ∧
        mutexes σ' = mutexes σ ∧
        arrays_kept σ σ'.
Proof.
  induction os as [|o os IH]; intros σ Hok Hh; simpl in *.
  - eexists. split_and!; auto using arrays_kept_refl.
  - apply andb_true_iff in Hh as [Ho Hos].
    pose proof (run_op_spec ac o σ Hok) as H. rewrite Ho in H.
    destruct H as (σ1 & -> & Hok1 & He1 & Hmu1 & Hk1).
    destruct (IH σ1 Hok1 Hos) as (σ' & -> & Hok' & He' & Hmu' & Hk').
    exists σ'. split_and!; try done.
    + by rewrite He', He1.
    + congruence.
    + by eapply arrays_kept_trans.
Qed.

(** A history that returns had only hashable keys. *)
Lemma run_ops_hashable ac os : ∀ σ σ',
  store_ok ac σ = true →
  run_ops ac os σ = Some σ' →
  forallb op_hashable os = true.
Proof.
  induction os as [|o os IH]; intros σ σ' Hok Hrun; simpl in *; [done|].
  pose proof (run_op_spec ac o σ Hok) as H.
  destruct (op_hashable o); [|by rewrite H in Hrun].
  destruct H as (σ1 & Hσ1 & Hok1 & _). rewrite Hσ1 in Hrun.
  simpl. eauto.
Qed.

Lemma run_ops_inv ac os σ σ' :
  store_ok ac σ = true →
  run_ops ac os σ = Some σ' →
  store_ok ac σ' = true ∧
  entries ac σ' = foldl (λ em o, op_entries o em) (entries ac σ) os ∧
  mutexes σ' = mutexes σ ∧
  arrays_kept σ σ'.
Proof.
  intros Hok Hrun. pose proof (run_ops_hashable _ _ _ _ Hok Hrun) as Hh.
  destruct (run_ops_spec ac os σ Hok Hh) as (σ'' & Hrun' & H).
  rewrite Hrun in Hrun'. by simplify_eq.
Qed.

(** A cache made by [New] is at rest and empty. *)
Lemma New_store_ok capacity σ ac σ' :
  run (New capacity) σ = Returns (Some ac, None) σ' →
  store_ok ac σ' = true ∧ entries ac σ' = [].
Proof.
  rewrite run_New. destruct (capacity >=? maxCacheSize); [done|].
  destruct (capacity <? 1); [done|].
  intros [= <- <-]. unfold store_ok, entries. simpl.
  by rewrite !lookup_insert_eq.
Qed.

Lemma map_index_history k os : ∀ em,
  forallb (λ o, negb (stores k o)) os = true →
  forallb (λ o, negb (is_flush o)) os = true →
  map_index (foldl (λ em o, op_entries o em) em os) k = map_index em k.
Proof.
  induction os as [|o os IH]; intros em Hs Hf; simpl in *; [done|].
  apply andb_true_iff in Hs as [Ho Hs]. apply andb_true_iff in Hf as [Ho' Hf].
  rewrite IH by done.
  destruct o; simpl in *; try done.
  rewrite map_index_assign. apply negb_true_iff in Ho. by rewrite Ho.
Qed.

Lemma map_index_history_None k os : ∀ em,
  forallb (λ o, negb (stores k o)) os = true →
  map_index em k = None →
  map_index (foldl (λ em o, op_entries o em) em os) k = None.
Proof.
  induction os as [|o os IH]; intros em Hs Hem; simpl in *; [done|].
  apply andb_true_iff in Hs as [Ho Hs].
  apply IH; [done|].
  destruct o; simpl in *; try done.
  rewrite map_index_assign. apply negb_true_iff in Ho. by rewrite Ho.
Qed.

(** [Keys] returns a fresh slice that holds the keys in the order of
    the iteration, and changes nothing else that a cache can see. *)
Lemma Keys_spec ac σ :
  store_ok ac σ = true →
  ∃ s σ', run (Keys ac) σ = Returns s σ' ∧
          slice_elems σ' s =
            keys (iteration (entropy σ) (ticks σ) (entries ac σ)) ∧
          maps σ' = maps σ ∧
          mutexes σ' = mutexes σ ∧
          arrays_kept σ σ' ∧
          (ptr s < brk σ')%positive.
Proof.
  intros Hok. rewrite run_Keys by done. eexists _, _. split; [done|].
  unfold slice_elems. simpl. rewrite lookup_insert_eq. simpl.
  split_and!; try done.
  - rewrite take_ge; [done|]. unfold keys.
    by rewrite length_fmap, length_iteration.
  - split; simpl; [lia|]. intros a Ha. rewrite lookup_insert_ne; [done|lia].
  - lia.
Qed.

(** A slice allocated earlier reads the same after later calls. *)
Lemma slice_elems_kept σ σ' s :
  arrays_kept σ σ' → (ptr s < brk σ)%positive →
  slice_elems σ' s = slice_elems σ s.
Proof. intros [_ H] Hs. unfold slice_elems. by rewrite H. Qed.

Lemma store_ok_ext ac σ σ' :
  maps σ' = maps σ → mutexes σ' = mutexes σ → store_ok ac σ' = store_ok ac σ.
Proof. intros Hm Hx. unfold store_ok. by rewrite Hm, Hx. Qed.

Lemma entries_ext ac σ σ' : maps σ' = maps σ → entries ac σ' = entries ac σ.
Proof. intros Hm. unfold entries. by rewrite Hm. Qed.

(** A second [Set] under a key that is equal to itself overwrites. *)
Lemma Set_twice ac σ k v v2 :
  store_ok ac σ = true → hashable k = true → reflexive k = true →
  ∃ b σ1 σ2,
    run (Set_ ac k v) σ = Returns (mkItem k v, b) σ1 ∧
    run (Set_ ac k v2) σ1 = Returns (mkItem k v2, true) σ2.
Proof.
  intros Hok Hk Hr. pose proof (store_ok_inv _ _ Hok) as (_ & Hwf & _).
  rewrite run_Set, Hk by done. eexists _, _, _. split; [done|].
  rewrite run_Set, Hk, entries_set_maps
    by (apply store_ok_set_maps; [done|by apply map_assign_wf]).
  unfold reflexive in Hr. by rewrite has_key_assign, Hr.
Qed.

(** Storing under the integers below [n] makes [n] entries. *)
Lemma int_keys_entries n :
  length (foldl (λ em o, op_entries o em) [] (int_keys n)) = n ∧
  ∀ k v, (k, v) ∈ foldl (λ em o, op_entries o em) [] (int_keys n) →
         ∃ i, (i < n)%nat ∧ k = VInt (Z.of_nat i).
Proof.
  induction n as [|n [IHlen IHin]].
  - split; [done|]. intros k v Hin. by apply elem_of_nil in Hin.
  - unfold int_keys in *. rewrite seq_S, fmap_app, foldl_app. simpl.
    set (em := foldl (λ em o, op_entries o em) [] _) in *.
    assert (Hnew : has_key em (VInt (Z.of_nat n)) = false).
    { apply not_true_iff_false. rewrite has_key_spec.
      intros (k & v & Hin & Heq). destruct (IHin k v Hin) as (i & Hi & ->).
      simpl in Heq. apply Z.eqb_eq in Heq. lia. }
    split.
    + by rewrite length_map_assign, Hnew, IHlen.
    + intros k v [Hin|Heq]%elem_of_map_assign_inv.
      * destruct (IHin k v Hin) as (i & Hi & ->). exists i. split; [lia|done].
      * injection Heq as -> ->. exists n. split; [lia|done].
Qed.

Lemma int_keys_hashable n : forallb op_hashable (int_keys n) = true.
Proof.
  unfold int_keys. apply forallb_forall. intros o Hin.
  apply list_elem_of_In, list_elem_of_fmap in Hin as (i & -> & _). done.
Qed.

(** The two scenarios of the specification. *)
Example scenario_overwrite :
  ∃ ac σ0 σ1 σ2,
    run (New 10) heap0 = Returns (Some ac, None) σ0 ∧
    run (Set_ ac (VString "a") (VInt 1)) σ0
      = Returns (mkItem (VString "a") (VInt 1), false) σ1 ∧
    run (Set_ ac (VString "a") (VInt 2)) σ1
      = Returns (mkItem (VString "a") (VInt 2), true) σ2 ∧
    run (Get ac (VString "a")) σ2
      = Returns (mkItem (VString "a") (VInt 2), true) σ2 ∧
    run (Len ac) σ2 = Returns 1 σ2.
Proof. eexists _, _, _, _. split_and!; reflexivity. Qed.

Example scenario_flush :
  ∃ ac σ0 σ1 σ2 σ3,
    run (New 5) heap0 = Returns (Some ac, None) σ0 ∧
    run (Set_ ac (VInt 1) (VString "x")) σ0
      = Returns (mkItem (VInt 1) (VString "x"), false) σ1 ∧
    run (Set_ ac (VInt 2) (VString "y")) σ1
      = Returns (mkItem (VInt 2) (VString "y"), false) σ2 ∧
    run (Flush ac) σ2 = Returns () σ3 ∧
    run (Len ac) σ3 = Returns 0 σ3 ∧
    run (Get ac (VInt 1)) σ3 = Returns (zero_Item, false) σ3.
Proof. eexists _, _, _, _, _. split_and!; reflexivity. Qed.

End cache_facts.

(* ===================================================================== *)
(** * Properties of goroutines *)
(* ===================================================================== *)

Import Concurrent.

(** ** Steps of one goroutine *)

Section thread_facts.
Local Open Scope prog_scope.

Lemma thread_step_Defer {A} d (body : prog A) σ :
  final body = false →
  thread_step (Defer d body) σ =
  match thread_step body σ with
  | Some (body', σ') => Some (Defer d body', σ')
  | None => None
  end.
Proof. by destruct body. Qed.

(** A step of a goroutine does not change how its call ends when it is
    left to run alone from there. *)
Lemma thread_step_run {A} (p : prog A) : ∀ σ p' σ',
  thread_step p σ = Some (p', σ') → run p σ = run p' σ'.
Proof.
  induction p as [a|e|R a k IH|d body IH]; intros σ p' σ' Hstep.
  - done.
  - done.
  - simpl in *. destruct (do_action a σ); by simplify_eq.
  - destruct (final body) eqn:Hf.
    + destruct body as [a|e| |]; try done; simpl in *;
        destruct (do_action d σ); by simplify_eq.
    + rewrite thread_step_Defer in Hstep by done.
      destruct (thread_step body σ) as [[body' σ1]|] eqn:Hb; [|done].
      simplify_eq. cbn [run]. by rewrite (IH _ _ _ Hb).
Qed.

Lemma final_no_step {A} (p : prog A) σ : final p = true → thread_step p σ = None.
Proof. by destruct p. Qed.

Lemma data_action_mutexes {R} (a : action R) σ r σ' :
  data_action a = true → do_action a σ = Done r σ' → mutexes σ' = mutexes σ.
Proof.
  destruct a; simpl; intros; try done; repeat case_match; by simplify_eq.
Qed.

Lemma data_action_no_wait {R} (a : action R) σ :
  data_action a = true → do_action a σ ≠ Wait.
Proof. destruct a; simpl; intros; try done; repeat case_match; done. Qed.

Lemma lock_free_step {A} (p : prog A) σ p' σ' :
  lock_free p → thread_step p σ = Some (p', σ') →
  lock_free p' ∧ mutexes σ' = mutexes σ.
Proof.
  destruct p as [a|e|R a k|d body]; simpl; try done.
  intros [Ha Hk]. destruct (do_action a σ) eqn:Hdo; intros; simplify_eq.
  - split; [apply Hk|by eapply data_action_mutexes].
  - done.
Qed.

Lemma lock_free_progress {A} (p : prog A) σ :
  lock_free p → final p = false → is_Some (thread_step p σ).
Proof.
  destruct p as [a|e|R a k|d body]; simpl; try done.
  intros [Ha Hk] _. pose proof (data_action_no_wait a σ Ha).
  destruct (do_action a σ); eauto. done.
Qed.

(** A goroutine that holds the mutex keeps it until the step that runs
    the deferred [Unlock], which is its last. *)
Lemma inside_step mu {A} (p : prog A) σ p' σ' :
  inside mu p → mutexes σ !! mu = Some true →
  thread_step p σ = Some (p', σ') →
  (inside mu p' ∧ final p' = false ∧ mutexes σ' !! mu = Some true) ∨
  (final p' = true ∧ mutexes σ' !! mu = Some false).
Proof.
  destruct p as [a|e|R a k|d body]; try done.
  intros [-> Hbody] Hmu Hstep. destruct (final body) eqn:Hf.
  - right. destruct body; try done; simpl in *; rewrite Hmu in Hstep;
      simplify_eq; simpl; by rewrite lookup_insert_eq.
  - left. rewrite thread_step_Defer in Hstep by done.
    destruct (thread_step body σ) as [[body' σ1]|] eqn:Hb; [|done].
    simplify_eq. destruct (lock_free_step _ _ _ _ Hbody Hb) as [? Hx].
    by rewrite Hx.
Qed.

Lemma inside_progress mu {A} (p : prog A) σ :
  inside mu p → mutexes σ !! mu = Some true → is_Some (thread_step p σ).
Proof.
  destruct p as [a|e|R a k|d body]; try done.
  intros [-> Hbody] Hmu. destruct (final body) eqn:Hf.
  - destruct body; try done; simpl; rewrite Hmu; eauto.
  - rewrite thread_step_Defer by done.
    destruct (lock_free_progress body σ Hbody Hf) as [[? ?] ->]. eauto.
Qed.

Lemma inside_not_final mu {A} (p : prog A) : inside mu p → final p = false.
Proof. by destruct p. Qed.

Lemma accessing_not_final m {A} (p : prog A) :
  accessing m p = true → final p = false.
Proof. by destruct p. Qed.

Lemma run_pmap {A B} (f : A → B) (p : prog A) : ∀ σ,
  run (pmap f p) σ =
  match run p σ with
  | Returns a σ' => Returns (f a) σ'
  | Panics e σ' => Panics e σ'
  | Blocks => Blocks
  end.
Proof.
  induction p as [a|e|R a k IH|d body IH]; intros σ; simpl.
  - done.
  - done.
  - destruct (do_action a σ); auto.
  - rewrite IH. destruct (run body σ) as [a σ'|e σ'|]; [| |done];
      by destruct (do_action d σ').
Qed.

Lemma lock_free_pmap {A B} (f : A → B) (p : prog A) :
  lock_free p → lock_free (pmap f p).
Proof.
  induction p as [a|e|R a k IH|d body IH]; simpl; try done.
  intros [? ?]. split; [done|]. intros r. by apply IH.
Qed.

Lemma Keys_loop_lock_free it : ∀ ret, lock_free (Keys_loop it ret).
Proof.
  induction it as [|[k v] it IH]; intros ret; simpl; [done|].
  split; [done|]. intros r. apply IH.
Qed.

(** Every method starts by taking the mutex and runs the rest of its
    body with the release deferred: before the mutex is free the call
    cannot start, and once it has it, it is [inside]. *)
Lemma call_prog_waits ac o σ :
  mutexes σ !! mu ac = Some true → thread_step (call_prog ac o) σ = None.
Proof. intros Hmu. destruct o; simpl; by rewrite Hmu. Qed.

Lemma call_prog_locks ac o σ :
  mutexes σ !! mu ac = Some false →
  ∃ p', thread_step (call_prog ac o) σ =
          Some (p', set_mutexes <[mu ac := true]> σ) ∧
        inside (mu ac) p'.
Proof.
  intros Hmu. destruct o; simpl; rewrite Hmu; eexists; (split; [done|]);
    simpl; (split; [done|]); repeat (split; [done|]; intros ?);
    try done; try (case_match; done).
  apply lock_free_pmap, Keys_loop_lock_free.
Qed.

Lemma call_prog_not_final ac o : final (call_prog ac o) = false.
Proof. by destruct o. Qed.

Lemma call_prog_not_accessing m ac o : accessing m (call_prog ac o) = false.
Proof. by destruct o. Qed.

(** A call that runs alone on a cache at rest leaves it at rest; it
    returns when its key is comparable and panics when it is not. *)
Lemma call_prog_run ac o σ :
  store_ok ac σ = true →
  ∃ σ', store_ok ac σ' = true ∧
        entries ac σ' =
          (if op_hashable o then op_entries o (entries ac σ)
           else entries ac σ) ∧
        if op_hashable o
        then ∃ r, run (call_prog ac o) σ = Returns r σ'
        else run (call_prog ac o) σ = Panics unhashable σ'.
Proof.
  intros Hok. pose proof (run_op_spec ac o σ Hok) as Hspec.
  destruct o as [key val|key| | |]; cbn [call_prog op_hashable] in *;
    rewrite run_pmap.
  - rewrite run_Set by done. cbn [run_op] in Hspec.
    rewrite run_Set in Hspec by done.
    destruct (hashable key); [|eauto].
    destruct Hspec as (σ' & [= <-] & ? & ? & _). eauto.
  - rewrite run_Get by done. destruct (hashable key); eauto.
  - destruct Hspec as (σ' & Hrun & ? & ? & _). cbn [run_op] in Hrun.
    destruct (run (Keys ac) σ); simplify_eq/=. eauto.
  - destruct Hspec as (σ' & Hrun & ? & ? & _). cbn [run_op] in Hrun.
    destruct (run (Flush ac) σ); simplify_eq/=. eauto.
  - rewrite run_Len by done. eauto.
Qed.

End thread_facts.

(** ** Pools of calls *)

Section pool_facts.
Local Open Scope prog_scope.

Lemma finished_insert os : ∀ ts i o p p',
  os !! i = Some o → ts !! i = Some p → final p = false →
  finished os (<[i := p']> ts) ≡ₚ
  (if final p' then [(o, p')] else []) ++ finished os ts.
Proof.
  induction os as [|o0 os IH]; intros [|q ts] [|i] o p p' Ho Hp Hf;
    simplify_eq/=.
  - rewrite Hf. by destruct (final p').
  - pose proof (IH ts i o p p' Ho Hp Hf) as Hperm.
    destruct (final q), (final p'); simpl in *; try done.
    + rewrite Hperm. apply Permutation_swap.
    + by rewrite Hperm.
Qed.

Lemma finished_all os ts :
  length os = length ts → Forall (λ p, final p = true) ts →
  finished os ts = zip os ts.
Proof.
  revert ts. induction os as [|o os IH]; intros [|p ts] Hlen Hall;
    simplify_eq/=; [done|].
  apply Forall_cons in Hall as [-> Hall]. by rewrite IH.
Qed.

Lemma finished_spawn ac os : finished os (spawn ac os) = [].
Proof.
  induction os as [|o os IH]; simpl; [done|].
  by rewrite call_prog_not_final.
Qed.

Lemma seq_exec_app ac h1 h2 σ σ1 σ' :
  seq_exec ac h1 σ σ1 → seq_exec ac h2 σ1 σ' → seq_exec ac (h1 ++ h2) σ σ'.
Proof.
  revert σ. induction h1 as [|[o p] h1 IH]; intros σ; simpl.
  - by intros ->.
  - intros (σ2 & Hf & Hrun & Hrest) H2. exists σ2. eauto.
Qed.

(** A goroutine that is done stays where its call, run alone, ends. *)
Lemma final_run {A} (p : prog A) σ :
  final p = true →
  (∃ a, p = Ret a ∧ run p σ = Returns a σ) ∨
  (∃ e, p = Panic e ∧ run p σ = Panics e σ).
Proof. destruct p; try done; intros _; [left|right]; eauto. Qed.

Lemma pool_inv_spawn ac σ0 os :
  store_ok ac σ0 = true → pool_inv ac σ0 os (σ0, spawn ac os).
Proof.
  intros Hok. split; simpl.
  - unfold spawn. apply Forall2_fmap_r, Forall_Forall2_diag, Forall_forall.
    intros o _. by left.
  - exists [], σ0. rewrite finished_spawn. split_and!; try done.
    left. split; [|done]. unfold spawn. apply Forall_fmap, Forall_forall.
    intros o _. by destruct o.
Qed.

Lemma thread_step_cost {A} (p : prog A) : ∀ σ p' σ',
  thread_step p σ = Some (p', σ') → cost p σ = S (cost p' σ').
Proof.
  induction p as [a|e|R a k IH|d body IH]; intros σ p' σ' Hstep.
  - done.
  - done.
  - simpl in *. destruct (do_action a σ); by simplify_eq.
  - destruct (final body) eqn:Hf.
    + destruct body as [a|e| |]; try done; simpl in *;
        destruct (do_action d σ); by simplify_eq.
    + rewrite thread_step_Defer in Hstep by done.
      destruct (thread_step body σ) as [[body' σ1]|] eqn:Hb; [|done].
      simplify_eq. cbn [cost].
      by rewrite (IH _ _ _ Hb), (thread_step_run _ _ _ _ Hb).
Qed.

Lemma sum_list_insert {A} (f : A → nat) l i x y :
  l !! i = Some x →
  sum_list (f <$> <[i := y]> l) + f x = sum_list (f <$> l) + f y.
Proof.
  revert i. induction l as [|z l IH]; intros [|i] Hi; simplify_eq/=; [lia|].
  specialize (IH i Hi). lia.
Qed.

Lemma held_cost_quiet σ ts :
  Forall (λ p, holding p = false) ts → held_cost σ ts = 0.
Proof.
  induction 1 as [|p ts Hp _ IH]; [done|].
  change (held_cost σ (p :: ts))
    with ((if holding p then cost p σ else 0) + held_cost σ ts).
  by rewrite Hp, IH.
Qed.

Lemma held_cost_cons σ q ts :
  held_cost σ (q :: ts) = (if holding q then cost q σ else 0) + held_cost σ ts.
Proof. done. Qed.

Lemma held_cost_one σ ts : ∀ i p,
  ts !! i = Some p →
  (∀ j q, ts !! j = Some q → holding q = true → j = i) →
  held_cost σ ts = if holding p then cost p σ else 0.
Proof.
  induction ts as [|q ts IH]; intros [|i] p Hi Hu; try done;
    rewrite held_cost_cons.
  - injection Hi as ->. rewrite held_cost_quiet; [lia|].
    apply Forall_lookup. intros j q Hj. destruct (holding q) eqn:Hq; [|done].
    by specialize (Hu (S j) q Hj Hq).
  - destruct (holding q) eqn:Hq; [by specialize (Hu 0 q eq_refl Hq)|].
    apply (IH i p Hi). intros j q' Hj Hq'.
    by specialize (Hu (S j) q' Hj Hq') as [= ->].
Qed.

Lemma inside_holding mu {A} (p : prog A) : inside mu p → holding p = true.
Proof. by destruct p. Qed.

Lemma final_not_holding {A} (p : prog A) : final p = true → holding p = false.
Proof. by destruct p. Qed.

(** A step keeps the invariant, and either starts a call or brings the
    goroutine that holds the mutex one step nearer to its end. *)
Lemma pool_step_inv ac σ0 os s s' :
  pool_inv ac σ0 os s → pool_step s s' →
  pool_inv ac σ0 os s' ∧
  (idle_count s'.2 < idle_count s.2 ∨
   (idle_count s'.2 = idle_count s.2 ∧ held_cost s'.1 s'.2 < held_cost s.1 s.2)).
Proof.
  intros [Hth (h & σq & Hperm & Hseq & Hokq & Hphase)] Hstep.
  destruct Hstep as [σ ts i p p' σ' Hi Hts]. cbn [fst snd] in *.
  destruct (Forall2_lookup_r _ _ _ _ _ Hth Hi) as (o & Ho & Hinv).
  assert (Hth' : ∀ q', thread_inv ac o q' →
                       Forall2 (thread_inv ac) os (<[i:=q']> ts)).
  { intros q' Hq'. rewrite <- (list_insert_id os i o Ho).
    by apply Forall2_insert. }
  assert (Hlt : i < length ts) by by eapply lookup_lt_Some.
  pose proof (sum_list_insert (λ p, if final p || holding p then 0 else 1)
                ts i p p' Hi) as Hidle.
  fold (idle_count (<[i:=p']> ts)) in Hidle. fold (idle_count ts) in Hidle.
  destruct Hphase as [[Hquiet ->]|
    (i0 & o0 & p0 & Ho0 & Hi0 & Hin0 & Huniq & Hmu & Hrun)].
  - (* nobody holds the mutex: the step starts a call *)
    pose proof (store_ok_inv _ _ Hokq) as (_ & _ & Hfree).
    pose proof (Forall_lookup_1 _ _ _ _ Hquiet Hi) as Hp.
    destruct Hinv as [->|[Hin|Hfin]].
    + destruct (call_prog_locks ac o σq Hfree) as (p1 & Hstep1 & Hin1).
      rewrite Hstep1 in Hts. simplify_eq.
      split; [split; cbn [fst snd]|].
      * apply Hth'. right. by left.
      * exists h, σq. split_and!; try done.
        { rewrite finished_insert by (done || apply call_prog_not_final).
          by rewrite (inside_not_final _ _ Hin1). }
        right. exists i, o, p'. split_and!; try done.
        { by apply list_lookup_insert_eq. }
        { intros j q Hj Hq. destruct (decide (j = i)) as [|Hne]; [done|].
          rewrite list_lookup_insert_ne in Hj by done.
          pose proof (Forall_lookup_1 _ _ _ _ Hquiet Hj). congruence. }
        { simpl. by rewrite lookup_insert_eq. }
        { symmetry. by apply thread_step_run. }
      * left. rewrite call_prog_not_final in Hidle. simpl in Hidle.
        rewrite (inside_holding _ _ Hin1), orb_true_r, Hp in Hidle. lia.
    + apply inside_holding in Hin. congruence.
    + by rewrite final_no_step in Hts.
  - (* one goroutine holds the mutex: the step is its own *)
    destruct Hinv as [->|[Hin|Hfin]].
    + by rewrite call_prog_waits in Hts.
    + assert (i = i0) as -> by by eapply Huniq, inside_holding.
      assert (p0 = p) as -> by congruence.
      assert (o0 = o) as -> by congruence.
      pose proof (thread_step_run _ _ _ _ Hts) as Hrun'.
      pose proof (held_cost_one σ ts i0 p Hi Huniq) as Hcost.
      rewrite (inside_holding _ _ Hin), (thread_step_cost _ _ _ _ Hts) in Hcost.
      rewrite (inside_holding _ _ Hin), orb_true_r in Hidle.
      assert (Huniq' : ∀ j q, <[i0:=p']> ts !! j = Some q →
                              holding q = true → j = i0).
      { intros j q Hj Hq. destruct (decide (j = i0)) as [|Hne]; [done|].
        rewrite list_lookup_insert_ne in Hj by done. eauto. }
      destruct (inside_step _ _ _ _ _ Hin Hmu Hts)
        as [(Hin' & Hnf & Hmu')|(Hfin' & Hmu')].
      * split; [split; cbn [fst snd]|].
        { apply Hth'. right. by left. }
        { exists h, σq. split_and!; try done.
          { rewrite finished_insert by (done || by eapply inside_not_final).
            by rewrite Hnf. }
          right. exists i0, o, p'. split_and!; try done.
          { by apply list_lookup_insert_eq. }
          { congruence. } }
        right. cbn [fst snd]. rewrite Hnf, (inside_holding _ _ Hin') in Hidle.
        split; [simpl in Hidle; lia|].
        rewrite (held_cost_one σ' (<[i0:=p']> ts) i0 p')
          by (done || by apply list_lookup_insert_eq).
        rewrite (inside_holding _ _ Hin'). lia.
      * assert (Hquiet' : Forall (λ q, holding q = false) (<[i0:=p']> ts)).
        { apply Forall_lookup. intros j q Hj.
          destruct (holding q) eqn:Hq; [|done].
          specialize (Huniq' j q Hj Hq) as ->.
          rewrite list_lookup_insert_eq in Hj by done. simplify_eq.
          apply final_not_holding in Hfin'. congruence. }
        split; [split; cbn [fst snd]|].
        { apply Hth'. right. by right. }
        { exists (h ++ [(o, p')]), σ'. split_and!.
          - rewrite finished_insert by (done || by eapply inside_not_final).
            rewrite Hfin', Hperm. simpl. symmetry. apply Permutation_cons_append.
          - eapply seq_exec_app; [done|]. exists σ'. split_and!; try done.
            congruence.
          - destruct (call_prog_run ac o σq Hokq) as (σ'' & Hok'' & _ & Hout).
            rewrite <- Hrun, Hrun' in Hout.
            assert (σ' = σ'') as -> ; [|done].
            destruct (op_hashable o); [destruct Hout as [r Hout]|];
              destruct (final_run p' σ' Hfin') as [(a & _ & Ha)|(e & _ & He)];
              congruence.
          - by left. }
        right. cbn [fst snd]. rewrite Hfin' in Hidle. split; [simpl in Hidle; lia|].
        rewrite held_cost_quiet by done. lia.
    + by rewrite final_no_step in Hts.
Qed.

Lemma pool_reachable_inv ac σ0 os s :
  store_ok ac σ0 = true →
  rtc pool_step (σ0, spawn ac os) s → pool_inv ac σ0 os s.
Proof.
  intros Hok. apply rtc_ind_r.
  - by apply pool_inv_spawn.
  - intros s1 s2 _ Hstep Hinv. by eapply pool_step_inv.
Qed.

(** Every execution of a pool of calls is finite. *)
Lemma pool_inv_sn ac σ0 os : ∀ n c s,
  pool_inv ac σ0 os s → idle_count s.2 = n → held_cost s.1 s.2 = c →
  sn pool_step s.
Proof.
  induction n as [n IHn] using lt_wf_ind.
  induction c as [c IHc] using lt_wf_ind.
  intros s Hinv Hn Hc. constructor. intros s' Hstep. unfold flip in Hstep.
  destruct (pool_step_inv _ _ _ _ _ Hinv Hstep) as [Hinv' [Hlt|[Heq Hlt]]].
  - eapply (IHn (idle_count s'.2)); [lia|done..].
  - eapply (IHc (held_cost s'.1 s'.2)); [lia|done|lia|done].
Qed.

Lemma pool_sn ac σ0 os :
  store_ok ac σ0 = true → sn pool_step (σ0, spawn ac os).
Proof.
  intros Hok. eapply pool_inv_sn; [by apply pool_inv_spawn|done..].
Qed.

(** A pool that is not done can take a step. *)
Lemma pool_inv_progress ac σ0 os s :
  pool_inv ac σ0 os s →
  Forall (λ p, final p = true) s.2 ∨ ∃ s', pool_step s s'.
Proof.
  intros [Hth (h & σq & _ & _ & Hokq & Hphase)]. destruct s as [σ ts].
  cbn [fst snd] in *.
  destruct Hphase as [[Hquiet ->]|
    (i & o & p & Ho & Hi & Hin & _ & Hmu & _)].
  - destruct (decide (Forall (λ p, final p = true) ts)) as [|Hnot]; [by left|].
    right. apply not_Forall_Exists, Exists_exists in Hnot as (p & Hp & Hnf);
      [|apply _].
    apply list_elem_of_lookup in Hp as [i Hi].
    destruct (Forall2_lookup_r _ _ _ _ _ Hth Hi) as (o & Ho & Hinv).
    pose proof (Forall_lookup_1 _ _ _ _ Hquiet Hi) as Hnh.
    destruct Hinv as [->|[Hin|Hfin]].
    + pose proof (store_ok_inv _ _ Hokq) as (_ & _ & Hfree).
      destruct (call_prog_locks ac o σq Hfree) as (p' & Hstep & _).
      eexists. by econstructor.
    + apply inside_holding in Hin. congruence.
    + done.
  - right. destruct (inside_progress _ _ _ Hin Hmu) as [[p' σ'] Hstep].
    eexists. by econstructor.
Qed.

(** Some execution runs every goroutine to its end. *)
Lemma pool_inv_completes ac σ0 os s :
  pool_inv ac σ0 os s → sn pool_step s →
  ∃ s', rtc pool_step s s' ∧ Forall (λ p, final p = true) s'.2.
Proof.
  intros Hinv Hsn. induction Hsn as [s _ IH].
  destruct (pool_inv_progress _ _ _ _ Hinv) as [Hall|[s' Hstep]].
  - by exists s.
  - destruct (IH s' Hstep) as (s'' & Hrtc & Hall).
    { by eapply pool_step_inv. }
    exists s''. split; [by eapply rtc_l|done].
Qed.

(** Only the goroutine that holds the mutex is about to touch a map,
    and at most one goroutine holds it. *)
Lemma pool_inv_exclusive ac σ0 os s i j p q :
  pool_inv ac σ0 os s →
  s.2 !! i = Some p → s.2 !! j = Some q →
  holding p = true ∨ accessing (items ac) p = true →
  holding q = true ∨ accessing (items ac) q = true →
  i = j.
Proof.
  intros [Hth (h & σq & _ & _ & _ & Hphase)] Hi Hj Hp Hq.
  assert (Hhold : ∀ k r, s.2 !! k = Some r →
    holding r = true ∨ accessing (items ac) r = true → holding r = true).
  { intros k r Hk [Hr|Hr]; [done|].
    destruct (Forall2_lookup_r _ _ _ _ _ Hth Hk) as (o & _ & Hinv).
    destruct Hinv as [->|[Hin|Hfin]].
    - by rewrite call_prog_not_accessing in Hr.
    - by eapply inside_holding.
    - apply accessing_not_final in Hr. congruence. }
  apply (Hhold i p Hi) in Hp. apply (Hhold j q Hj) in Hq.
  destruct Hphase as [[Hquiet _]|(i0 & _ & _ & _ & _ & _ & Huniq & _)].
  - pose proof (Forall_lookup_1 _ _ _ _ Hquiet Hi). congruence.
  - rewrite (Huniq i p Hi Hp), (Huniq j q Hj Hq). done.
Qed.

(** When every goroutine is done, the heap is the one that the calls
    leave when they run one after the other in some order, and each
    goroutine ended as its call ends in that order. *)
Lemma pool_inv_linearizable ac σ0 os s :
  pool_inv ac σ0 os s →
  Forall (λ p, final p = true) s.2 →
  ∃ h, h ≡ₚ zip os s.2 ∧ seq_exec ac h σ0 s.1 ∧ store_ok ac s.1 = true.
Proof.
  intros [Hth (h & σq & Hperm & Hseq & Hokq & Hphase)] Hall.
  exists h. rewrite finished_all in Hperm
    by (done || by eapply Forall2_length).
  destruct Hphase as [[_ ->]|(i & o & p & _ & Hi & Hin & _)]; [done|].
  pose proof (Forall_lookup_1 _ _ _ _ Hall Hi) as Hf.
  apply inside_not_final in Hin. congruence.
Qed.

(** What a sequential history leaves. *)
Lemma seq_exec_spec ac h : ∀ σ σ',
  store_ok ac σ = true → seq_exec ac h σ σ' →
  store_ok ac σ' = true ∧
  entries ac σ' = foldl op_effect (entries ac σ) h.*1 ∧
  Forall ends_well h.
Proof.
  induction h as [|[o p] h IH]; intros σ σ' Hok; simpl.
  - by intros <-.
  - intros (σ1 & Hf & Hrun & Hrest).
    destruct (call_prog_run ac o σ Hok) as (σ'' & Hok'' & He & Hout).
    assert (σ1 = σ'' ∧ ends_well (o, p)) as [-> Hend].
    { unfold ends_well. cbn [fst snd].
      destruct (op_hashable o); [destruct Hout as [r Hout]|];
        rewrite Hrun in Hout;
        destruct (final_run p σ1 Hf) as [(a & -> & Ha)|(e & -> & Ha)];
        simplify_eq/=; eauto. }
    destruct (IH _ _ Hok'' Hrest) as (Hok' & He' & Hall).
    split_and!; [done| |by constructor].
    by rewrite He', He.
Qed.

(** [Set] calls under fresh, pairwise unequal, comparable keys add one
    entry each and lose none. *)
Lemma sets_entries kvs : ∀ em,
  forallb hashable kvs.*1 = true →
  distinct kvs.*1 = true →
  (∀ k, k ∈ kvs.*1 → has_key em k = false) →
  length (foldl op_effect em (set_all kvs)) = length em + length kvs ∧
  (∀ kv, kv ∈ kvs → kv ∈ foldl op_effect em (set_all kvs)) ∧
  (∀ e, e ∈ em → e ∈ foldl op_effect em (set_all kvs)).
Proof.
  induction kvs as [|[k v] kvs IH]; intros em Hh Hd Hfresh; simpl in *.
  - split_and!; [lia| |done]. intros kv Hkv. by apply elem_of_nil in Hkv.
  - apply andb_true_iff in Hh as [Hk Hh].
    apply andb_true_iff in Hd as [Hnew Hd]. apply negb_true_iff in Hnew.
    unfold op_effect at 2 4 6. simpl. rewrite Hk.
    assert (Hem : has_key em k = false) by (apply Hfresh; by left).
    assert (Hfresh' : ∀ k', k' ∈ kvs.*1 → has_key (map_assign em k v) k' = false).
    { intros k' Hk'. rewrite has_key_assign, (Hfresh k') by by right.
      rewrite orb_false_r, go_eq_sym.
      apply not_true_iff_false. intros Heq.
      apply not_true_iff_false in Hnew. apply Hnew, existsb_exists.
      exists k'. by rewrite <- list_elem_of_In. }
    destruct (IH (map_assign em k v) Hh Hd Hfresh') as (Hlen & Hin & Hkeep).
    split_and!.
    + rewrite Hlen, length_map_assign, Hem. lia.
    + intros kv [->|Hkv]%elem_of_cons; [|by apply Hin].
      apply Hkeep, elem_of_map_assign.
    + intros [k' v'] He. apply Hkeep, elem_of_map_assign_ne; [|by left].
      apply not_true_iff_false. intros Heq.
      apply not_true_iff_false in Hem. apply Hem, has_key_spec. eauto.
Qed.

Lemma pairs_of_set_all kvs : pairs_of (set_all kvs) = kvs.
Proof.
  induction kvs as [|[k v] kvs IH]; simpl; [done|]. by rewrite IH.
Qed.

Lemma set_all_pairs_of os :
  Forall (λ o, ∃ k v, o = OpSet k v) os → set_all (pairs_of os) = os.
Proof.
  induction 1 as [|o os (k & v & ->) _ IH]; simpl; [done|]. by rewrite IH.
Qed.

(** [Set] calls under fresh, pairwise unequal, comparable keys, run one
    after the other in any order. *)
Lemma sets_entries_any_order kvs os em :
  os ≡ₚ set_all kvs →
  forallb hashable kvs.*1 = true →
  distinct kvs.*1 = true →
  (∀ k, k ∈ kvs.*1 → has_key em k = false) →
  length (foldl op_effect em os) = length em + length kvs ∧
  (∀ kv, kv ∈ kvs → kv ∈ foldl op_effect em os).
Proof.
  intros Hperm Hh Hd Hfresh.
  assert (Hsets : Forall (λ o, ∃ k v, o = OpSet k v) os).
  { rewrite Hperm. unfold set_all. apply Forall_fmap, Forall_forall.
    intros [k v] _. simpl. eauto. }
  assert (Hkvs : pairs_of os ≡ₚ kvs).
  { unfold pairs_of. rewrite Hperm. apply reflexive_eq, pairs_of_set_all. }
  rewrite <- (set_all_pairs_of os Hsets).
  destruct (sets_entries (pairs_of os) em) as (Hlen & Hin & _).
  - apply forallb_forall. intros k Hk%list_elem_of_In.
    rewrite Hkvs in Hk. rewrite forallb_forall in Hh.
    by apply Hh, list_elem_of_In.
  - by rewrite (distinct_Permutation _ (kvs.*1)) by by rewrite Hkvs.
  - intros k Hk. apply Hfresh. by rewrite <- Hkvs.
  - split.
    + by rewrite Hlen, Hkvs.
    + intros kv Hkv. apply Hin. by rewrite Hkvs.
Qed.

End pool_facts.

(* ===================================================================== *)
(** * Further properties of the methods *)
(* ===================================================================== *)

Import Behaviour.

Section history_facts.
Local Open Scope Z_scope.
Local Open Scope prog_scope.

(** Lookup after a history, from the lookup before it. *)
Lemma map_index_writes k os : ∀ em,
  map_index (foldl (λ em o, op_entries o em) em os) k =
  writes k (map_index em k) os.
Proof.
  unfold writes. induction os as [|o os IH]; intros em; simpl; [done|].
  rewrite IH. f_equal. destruct o; simpl; try done.
  apply map_index_assign.
Qed.

(** A value that a history leaves under [k] was stored by one of its
    [Set] calls, unless it was there before. *)
Lemma writes_Some k os : ∀ acc v,
  writes k acc os = Some v →
  acc = Some v ∨ ∃ key, OpSet key v ∈ os ∧ go_eq key k = true.
Proof.
  unfold writes. induction os as [|o os IH] using rev_ind; intros acc v; simpl.
  - auto.
  - rewrite foldl_app. simpl. intros H.
    assert (Hin : (∃ key, OpSet key v ∈ os ∧ go_eq key k = true) →
                  ∃ key, OpSet key v ∈ os ++ [o] ∧ go_eq key k = true).
    { intros (key' & ? & ?). exists key'. split; [|done].
      apply elem_of_app. by left. }
    destruct o as [key val| | | |]; simpl in H;
      try (destruct (IH _ _ H) as [?|?]; [by left|right; by apply Hin]).
    + destruct (go_eq key k) eqn:Hk.
      * injection H as ->. right. exists key. split; [|done].
        apply elem_of_app. right. by left.
      * destruct (IH _ _ H) as [?|?]; [by left|right; by apply Hin].
    + done.
Qed.

Lemma entries_since_flush os : ∀ em,
  foldl (λ em o, op_entries o em) em os =
  foldl (λ em o, op_entries o em)
    (if forallb (λ o, negb (is_flush o)) os then em else [])
    (since_flush os).
Proof.
  unfold since_flush.
  induction os as [|o os IH] using rev_ind; intros em; [done|].
  rewrite !foldl_app, forallb_app. simpl. rewrite andb_true_r.
  destruct o; simpl; rewrite ?andb_true_r, ?andb_false_r;
    try (by rewrite foldl_app, <- IH).
  done.
Qed.

Lemma since_flush_no_flush os :
  forallb (λ o, negb (is_flush o)) (since_flush os) = true.
Proof.
  unfold since_flush. induction os as [|o os IH] using rev_ind; [done|].
  rewrite foldl_app. simpl. destruct (is_flush o) eqn:Ho; [done|].
  by rewrite forallb_app, IH; simpl; rewrite Ho.
Qed.

(** Without a [Flush], every entry was there before or was stored by a
    [Set] of the history with this very key. *)
Lemma entries_were_set os : ∀ em k v,
  (k, v) ∈ foldl (λ em o, op_entries o em) em os →
  (k, v) ∈ em ∨ ∃ v', OpSet k v' ∈ os.
Proof.
  induction os as [|o os IH] using rev_ind; intros em k v; [by left|].
  rewrite foldl_app. simpl. intros Hin.
  assert (Hos : ∀ x, x ∈ os → x ∈ os ++ [o])
    by (intros; apply elem_of_app; by left).
  destruct o as [key val| | | |]; simpl in Hin;
    try (destruct (IH _ _ _ Hin) as [?|[v' ?]]; [by left|right; eauto]).
  - apply elem_of_map_assign_inv in Hin as [Hin|[= <- <-]].
    + destruct (IH _ _ _ Hin) as [?|[v' ?]]; [by left|right; eauto].
    + right. exists v. apply elem_of_app. right. by left.
  - by apply elem_of_nil in Hin.
Qed.

(** Without a [Flush], a key that is present stays present. *)
Lemma has_key_history k os : ∀ em,
  forallb (λ o, negb (is_flush o)) os = true →
  has_key em k = true →
  has_key (foldl (λ em o, op_entries o em) em os) k = true.
Proof.
  induction os as [|o os IH]; intros em Hf Hk; simpl in *; [done|].
  apply andb_true_iff in Hf as [Ho Hf]. apply IH; [done|].
  destruct o; simpl in *; try done.
  by rewrite has_key_assign, Hk, orb_true_r.
Qed.

(** Without a [Flush], a key equal to itself is present once stored. *)
Lemma has_key_once_set k v os : ∀ em,
  forallb (λ o, negb (is_flush o)) os = true →
  reflexive k = true →
  OpSet k v ∈ os →
  has_key (foldl (λ em o, op_entries o em) em os) k = true.
Proof.
  induction os as [|o os IH]; intros em Hf Hr Hin; simpl in *.
  - by apply elem_of_nil in Hin.
  - apply andb_true_iff in Hf as [Ho Hf].
    apply elem_of_cons in Hin as [<-|Hin]; [|by apply IH].
    apply has_key_history; [done|]. simpl.
    unfold reflexive in Hr. by rewrite has_key_assign, Hr.
Qed.

End history_facts.

Section frame_facts.
Local Open Scope Z_scope.
Local Open Scope prog_scope.

(** A call on one cache writes to no other map. *)
Lemma run_op_maps ac o σ σ' l :
  store_ok ac σ = true → run_op ac o σ = Some σ' →
  l ≠ items ac → maps σ' !! l = maps σ !! l.
Proof.
  intros Hok Hrun Hl. destruct o as [key val|key| | |]; cbn [run_op] in Hrun.
  - rewrite run_Set in Hrun by done. destruct (hashable key); [|done].
    cbn [returned] in Hrun. injection Hrun as <-. simpl.
    by rewrite lookup_insert_ne by by apply not_eq_sym.
  - rewrite run_Get in Hrun by done. destruct (hashable key); [|done].
    cbn [returned] in Hrun. by injection Hrun as <-.
  - rewrite run_Keys in Hrun by done.
    cbn [returned] in Hrun. by injection Hrun as <-.
  - rewrite run_Flush in Hrun by done.
    cbn [returned] in Hrun. injection Hrun as <-. simpl.
    by rewrite lookup_insert_ne by by apply not_eq_sym.
  - rewrite run_Len in Hrun by done.
    cbn [returned] in Hrun. by injection Hrun as <-.
Qed.

(** A call on one cache leaves a separate cache as it was. *)
Lemma run_op_separate ac ac2 o σ σ' :
  store_ok ac σ = true → run_op ac o σ = Some σ' → separate ac ac2 →
  store_ok ac2 σ' = store_ok ac2 σ ∧ entries ac2 σ' = entries ac2 σ.
Proof.
  intros Hok Hrun [Hi _].
  pose proof (run_op_maps ac o σ σ' (items ac2) Hok Hrun (not_eq_sym Hi)) as Hm.
  pose proof (run_op_spec ac o σ Hok) as Hspec.
  destruct (op_hashable o); [|congruence].
  destruct Hspec as (σ1 & Hrun1 & _ & _ & Hx & _).
  assert (σ1 = σ') as -> by congruence.
  unfold store_ok, entries. rewrite Hm, Hx. split; [done|].
  exact (f_equal (default []) Hm).
Qed.

Lemma run_op_entries ac o σ σ' :
  store_ok ac σ = true → run_op ac o σ = Some σ' →
  store_ok ac σ' = true ∧ entries ac σ' = op_entries o (entries ac σ) ∧
  arrays_kept σ σ'.
Proof.
  intros Hok Hrun. pose proof (run_op_spec ac o σ Hok) as Hspec.
  destruct (op_hashable o); [|congruence].
  destruct Hspec as (σ1 & Hrun1 & ? & ? & _ & ?).
  by assert (σ1 = σ') as -> by congruence.
Qed.

Lemma calls_on_cons_eq ac o h : calls_on ac ((ac, o) :: h) = o :: calls_on ac h.
Proof. unfold calls_on. by rewrite filter_cons_True. Qed.

Lemma calls_on_cons_ne ac ac' o h :
  ac' ≠ ac → calls_on ac ((ac', o) :: h) = calls_on ac h.
Proof. intros Hne. unfold calls_on. by rewrite filter_cons_False. Qed.

(** Two separate caches: each one ends where its own calls lead. *)
Lemma run_mixed_separate ac1 ac2 h : ∀ σ σ',
  separate ac1 ac2 →
  store_ok ac1 σ = true → store_ok ac2 σ = true →
  Forall (λ x, x.1 = ac1 ∨ x.1 = ac2) h →
  run_mixed h σ = Some σ' →
  (store_ok ac1 σ' = true ∧
   entries ac1 σ' =
     foldl (λ em o, op_entries o em) (entries ac1 σ) (calls_on ac1 h)) ∧
  (store_ok ac2 σ' = true ∧
   entries ac2 σ' =
     foldl (λ em o, op_entries o em) (entries ac2 σ) (calls_on ac2 h)).
Proof.
  intros σ σ' Hsep. revert σ.
  assert (Hne : ac1 ≠ ac2) by (intros ->; by destruct Hsep).
  assert (Hsep' : separate ac2 ac1) by (destruct Hsep; by split).
  induction h as [|[ac o] h IH]; intros σ Hok1 Hok2 Hall Hrun; simpl in *.
  - by injection Hrun as <-.
  - apply Forall_cons in Hall as [Hac Hall]. simpl in Hac.
    destruct (run_op ac o σ) as [σ1|] eqn:Ho; [|done].
    destruct Hac as [->| ->].
    + destruct (run_op_entries _ _ _ _ Hok1 Ho) as (Hok1' & He1 & _).
      destruct (run_op_separate _ ac2 _ _ _ Hok1 Ho Hsep) as [Hok2' He2].
      rewrite Hok2 in Hok2'.
      rewrite calls_on_cons_eq, (calls_on_cons_ne ac2 ac1) by done.
      simpl. rewrite <- He1, <- He2. by apply IH.
    + destruct (run_op_entries _ _ _ _ Hok2 Ho) as (Hok2' & He2 & _).
      destruct (run_op_separate _ ac1 _ _ _ Hok2 Ho Hsep') as [Hok1' He1].
      rewrite Hok1 in Hok1'.
      rewrite calls_on_cons_eq, (calls_on_cons_ne ac1 ac2) by done.
      simpl. rewrite <- He1, <- He2. by apply IH.
Qed.

(** [New] takes two locations that nothing allocated before uses. *)
Lemma New_fresh c σ ac σ' :
  run (New c) σ = Returns (Some ac, None) σ' →
  items ac = brk σ ∧ mu ac = Pos.succ (brk σ) ∧
  brk σ' = Pos.succ (Pos.succ (brk σ)) ∧
  (∀ l, l ≠ items ac → maps σ' !! l = maps σ !! l) ∧
  (∀ l, l ≠ mu ac → mutexes σ' !! l = mutexes σ !! l).
Proof.
  rewrite run_New. destruct (c >=? maxCacheSize); [done|].
  destruct (c <? 1); [done|]. intros [= <- <-]. simpl.
  split_and!; try done; intros l Hl;
    by rewrite lookup_insert_ne by by apply not_eq_sym.
Qed.

End frame_facts.

(** ** What the goroutines of a pool get back *)

Section answer_facts.
Local Open Scope prog_scope.

(** A call with comparable keys returns what [answer] says. *)
Lemma call_prog_answer ac o σ :
  store_ok ac σ = true → op_hashable o = true →
  ∃ r σ', run (call_prog ac o) σ = Returns r σ' ∧
          store_ok ac σ' = true ∧
          entries ac σ' = op_entries o (entries ac σ) ∧
          arrays_kept σ σ' ∧
          ∀ σ'', arrays_kept σ' σ'' → answer σ'' (entries ac σ) o r.
Proof.
  intros Hok Hh. pose proof (run_op_spec ac o σ Hok) as Hspec.
  rewrite Hh in Hspec. destruct Hspec as (σ' & Hrun & Hok' & He & _ & Hkept).
  destruct o as [key val|key| | |];
    cbn [call_prog op_hashable run_op answer] in *; rewrite run_pmap.
  - rewrite run_Set in Hrun |- * by done. rewrite Hh in Hrun |- *.
    injection Hrun as <-. eexists _, _. split_and!; done.
  - rewrite run_Get in Hrun |- * by done. rewrite Hh in Hrun |- *.
    injection Hrun as <-. eexists _, _. split_and!; try done.
    intros _ _. by destruct (map_index (entries ac σ) key).
  - destruct (Keys_spec ac σ Hok) as (s & σ1 & HK & Hs & _ & _ & _ & Hptr).
    rewrite HK in Hrun |- *. injection Hrun as ->.
    exists (RKeys s), σ'. split_and!; try done.
    intros σ'' Hk. exists s. split; [done|]. split.
    + rewrite run_Keys in HK by done. by injection HK as <- _.
    + rewrite (slice_elems_kept σ' σ'') by done. rewrite Hs.
      unfold keys. by rewrite iteration_Permutation.
  - rewrite run_Flush in Hrun |- * by done. injection Hrun as <-.
    eexists _, _. split_and!; done.
  - rewrite run_Len in Hrun |- * by done. injection Hrun as <-.
    eexists _, _. split_and!; done.
Qed.

(** A sequential history of calls with comparable keys, in closed
    form. *)
Lemma seq_exec_answers ac h : ∀ σ σ',
  store_ok ac σ = true →
  Forall (λ o, op_hashable o = true) h.*1 →
  seq_exec ac h σ σ' →
  arrays_kept σ σ' ∧
  seq_answers σ' (entries ac σ) h ∧
  entries ac σ' = foldl (λ em o, op_entries o em) (entries ac σ) h.*1.
Proof.
  induction h as [|[o p] h IH]; intros σ σ' Hok Hall; simpl.
  - intros <-. split_and!; auto using arrays_kept_refl.
  - intros (σ1 & Hf & Hrun & Hrest).
    apply Forall_cons in Hall as [Ho Hall]. cbn [fst] in Ho.
    destruct (call_prog_answer ac o σ Hok Ho)
      as (r & σ2 & Hr & Hok2 & He & Hkept & Hans).
    rewrite Hr in Hrun.
    destruct (final_run p σ1 Hf) as [(a & -> & Ha)|(e & -> & Ha)];
      rewrite Ha in Hrun; [|done].
    injection Hrun as -> ->.
    destruct (IH _ _ Hok2 Hall Hrest) as (Hkept' & Hrest' & He').
    split_and!.
    + by eapply arrays_kept_trans.
    + eauto.
    + by rewrite <- He.
    + by rewrite He', He.
Qed.

Lemma Forall2_zip {A B} (P : A → B → Prop) (l : list A) : ∀ k,
  length l = length k → Forall (λ x, P x.1 x.2) (zip l k) → Forall2 P l k.
Proof.
  induction l as [|a l IH]; intros [|b k] Hlen; try done.
  simpl. intros [? ?]%Forall_cons. constructor; auto.
Qed.

(** When the goroutines of a pool of calls with comparable keys are all
    done, they returned what the calls return one after the other in
    some order. *)
Lemma pool_answers ac σ0 os σ ts :
  store_ok ac σ0 = true →
  Forall (λ o, op_hashable o = true) os →
  rtc pool_step (σ0, spawn ac os) (σ, ts) →
  Forall (λ p, final p = true) ts →
  length os = length ts ∧ store_ok ac σ = true ∧
  ∃ h, h ≡ₚ zip os ts ∧ h.*1 ≡ₚ os ∧ h.*2 ≡ₚ ts ∧
       seq_answers σ (entries ac σ0) h ∧
       entries ac σ = foldl (λ em o, op_entries o em) (entries ac σ0) h.*1.
Proof.
  intros Hok Hh Hreach Hall.
  pose proof (pool_reachable_inv _ _ _ _ Hok Hreach) as Hinv.
  destruct (pool_inv_linearizable _ _ _ _ Hinv Hall)
    as (h & Hperm & Hseq & Hokσ). cbn [fst snd] in *.
  assert (Hlen : length os = length ts) by (by eapply Forall2_length, Hinv).
  assert (H1 : h.*1 ≡ₚ os) by (rewrite Hperm; apply reflexive_eq, fst_zip; lia).
  assert (H2 : h.*2 ≡ₚ ts) by (rewrite Hperm; apply reflexive_eq, snd_zip; lia).
  destruct (seq_exec_answers ac h σ0 σ Hok) as (_ & Hans & He); [|done|].
  { by rewrite H1. }
  split_and!; [done..|]. exists h. split_and!; done.
Qed.

(** Reads leave the entries as they are, so each is answered from the
    entries the history started with. *)
Lemma seq_answers_reads σ h : ∀ em,
  Forall (λ o, is_read o = true) h.*1 → seq_answers σ em h →
  Forall (λ x, ∃ r, x.2 = Ret r ∧ answer σ em x.1 r) h ∧
  foldl (λ em o, op_entries o em) em h.*1 = em.
Proof.
  induction h as [|[o p] h IH]; intros em Hall; simpl; [done|].
  apply Forall_cons in Hall as [Ho Hall]. intros [Hp Hrest].
  assert (He : op_entries o em = em) by (by destruct o).
  rewrite He in Hrest |- *. destruct (IH em Hall Hrest). split; [|done].
  by constructor.
Qed.

Lemma tally_cons {A} (f : A → bool) x l :
  tally f (x :: l) = ((if f x then 1 else 0) + tally f l)%nat.
Proof. unfold tally. simpl. by destruct (f x). Qed.

Lemma tally_Permutation {A} (f : A → bool) l l' :
  l ≡ₚ l' → tally f l = tally f l'.
Proof.
  induction 1; rewrite ?tally_cons; lia.
Qed.

(** As many hits as keys that are there. *)
Lemma tally_hits σ em ks : ∀ ts,
  Forall2 (λ o p, ∃ r, p = Ret r ∧ answer σ em o r) (OpGet <$> ks) ts →
  tally flagged ts = tally (has_key em) ks.
Proof.
  induction ks as [|k ks IH]; intros ts; simpl.
  - by intros ->%Forall2_nil_inv_l.
  - intros (p & ts' & (r & -> & Hr) & Hrest & ->)%Forall2_cons_inv_l.
    rewrite !tally_cons, (IH _ Hrest). f_equal.
    cbn [answer] in Hr. subst r.
    destruct (map_index em k) eqn:Hk; simpl.
    + assert (has_key em k = true) as -> by (by apply map_index_has_key).
      done.
    + apply map_index_None in Hk. by rewrite Hk.
Qed.

(** ** Growth without [Flush] *)

Lemma grown_refl em n : grown em em n.
Proof. split; [done|lia]. Qed.

Lemma grown_trans em1 em2 em3 n m :
  grown em1 em2 n → grown em2 em3 m → grown em1 em3 (n + m).
Proof. intros [H1 ?] [H2 ?]. split; [auto|lia]. Qed.

Lemma grown_mono em1 em2 n m : n ≤ m → grown em1 em2 n → grown em1 em2 m.
Proof. intros ? [? ?]. split; [done|lia]. Qed.

Lemma sets_cons o os : sets (o :: os) = sets [o] + sets os.
Proof. unfold sets, pairs_of. by destruct o. Qed.

Lemma sets_Permutation os os' : os ≡ₚ os' → sets os = sets os'.
Proof. unfold sets, pairs_of. by intros ->. Qed.

Lemma grown_step o em : is_flush o = false → grown em (op_entries o em) (sets [o]).
Proof.
  destruct o as [key val| | | |]; try done; intros _;
    try apply grown_refl.
  split.
  - intros k Hk. simpl. rewrite has_key_assign, Hk. apply orb_true_r.
  - simpl. rewrite length_map_assign. unfold sets. simpl.
    destruct (has_key em key); lia.
Qed.

(** With no [Flush] in the history, every call is answered from
    entries that hold what the history started with and at most one
    more per [Set]. *)
Lemma seq_answers_grown σ h : ∀ em,
  Forall (λ o, is_flush o = false) h.*1 → seq_answers σ em h →
  Forall (λ x, ∃ r em', x.2 = Ret r ∧ answer σ em' x.1 r ∧
                        grown em em' (sets h.*1)) h ∧
  grown em (foldl (λ em o, op_entries o em) em h.*1) (sets h.*1).
Proof.
  induction h as [|[o p] h IH]; intros em Hall; simpl.
  - intros _. split; [constructor|apply grown_refl].
  - apply Forall_cons in Hall as [Ho Hall]. cbn [fst] in Ho.
    intros [(r & -> & Hr) Hrest].
    destruct (IH _ Hall Hrest) as [Hh Hg].
    pose proof (grown_step o em Ho) as Hstep.
    rewrite sets_cons. split.
    + constructor.
      * exists r, em. split_and!; [done..|apply grown_refl].
      * eapply Forall_impl; [exact Hh|].
        intros [o' p'] (r' & em' & ? & ? & ?). exists r', em'.
        split_and!; [done..|]. by eapply grown_trans.
    + by eapply grown_trans.
Qed.

(** ** [Set] calls under one key *)

Lemma newcomers_step k em v n :
  newcomers k em (S n) =
  (if has_key em k then 0 else 1) + newcomers k (map_assign em k v) n.
Proof.
  unfold newcomers. rewrite has_key_assign.
  destruct (go_eq k k) eqn:Hk; simpl.
  - destruct (has_key em k); lia.
  - rewrite (has_key_irreflexive em k Hk). lia.
Qed.

(** Of the [Set] calls under one key, as many report no overwrite as
    entries are added. *)
Lemma seq_answers_one_key σ k h : ∀ em,
  Forall (λ o, ∃ v, o = OpSet k v) h.*1 → seq_answers σ em h →
  tally unflagged h.*2 = newcomers k em (length h) ∧
  length (foldl (λ em o, op_entries o em) em h.*1) =
    length em + newcomers k em (length h).
Proof.
  induction h as [|[o p] h IH]; intros em Hall.
  - intros _. unfold newcomers, tally. simpl.
    destruct (go_eq k k), (has_key em k); split; lia.
  - rewrite !fmap_cons in *. cbn [seq_answers foldl length fst snd].
    apply Forall_cons in Hall as [[v Ho] Hall]. cbn [fst] in Ho. subst o.
    intros [(r & -> & Hr) Hrest]. cbn [answer op_entries] in *. subst r.
    destruct (IH _ Hall Hrest) as [Ht Hl].
    rewrite tally_cons, (newcomers_step k em v), Ht, Hl, length_map_assign.
    simpl. destruct (has_key em k); simpl; lia.
Qed.

(** The last of them is the one that [Get] finds. *)
Lemma one_key_lookup k os : ∀ em,
  os ≠ [] → Forall (λ o, ∃ v, o = OpSet k v) os →
  ∃ v, OpSet k v ∈ os ∧
    map_index (foldl (λ em o, op_entries o em) em os) k =
      if go_eq k k then Some v else None.
Proof.
  induction os as [|o os IH] using rev_ind; intros em Hne Hall; [done|].
  apply Forall_app in Hall as [Hall [[v ->] _]%Forall_cons].
  exists v. split; [apply elem_of_app; right; by left|].
  rewrite foldl_app. simpl. rewrite map_index_assign.
  destruct (go_eq k k) eqn:Hk; [done|].
  apply map_index_None. by apply has_key_irreflexive.
Qed.

(** Every call of a history is answered from the entries that some of
    the other calls left, made one after the other. *)
Lemma seq_answers_point σ h : ∀ em,
  seq_answers σ em h →
  Forall (λ x, ∃ r pre, x.2 = Ret r ∧ pre ⊆ h.*1 ∧
                        answer σ (foldl (λ em o, op_entries o em) em pre) x.1 r) h.
Proof.
  induction h as [|[o p] h IH]; intros em; [constructor|].
  rewrite fmap_cons. cbn [seq_answers fst snd].
  intros [(r & -> & Hr) Hrest]. constructor.
  - exists r, []. split_and!; [done| |done]. apply list_subseteq_nil.
  - eapply Forall_impl; [exact (IH _ Hrest)|].
    intros [o' p'] (r' & pre & ? & Hpre & ?). exists r', (o :: pre).
    split_and!; [done| |done].
    intros x [->|Hx]%elem_of_cons; [by left|right; by apply Hpre].
Qed.

Lemma forallb_Forall {A} (f : A → bool) l :
  forallb f l = true ↔ Forall (λ x, f x = true) l.
Proof.
  induction l as [|x l IH]; simpl; [by split; [constructor|]|].
  by rewrite andb_true_iff, Forall_cons, IH.
Qed.

(** Some schedule runs every goroutine of a pool to its end. *)
Lemma pool_completes ac σ0 os :
  store_ok ac σ0 = true →
  ∃ σ ts, rtc pool_step (σ0, spawn ac os) (σ, ts) ∧
          Forall (λ p, final p = true) ts.
Proof.
  intros Hok.
  destruct (pool_inv_completes ac σ0 os (σ0, spawn ac os))
    as ([σ ts] & ? & ?); eauto using pool_inv_spawn, pool_sn.
Qed.

End answer_facts.

(* ===================================================================== *)
(** * The properties of the specification *)
(* ===================================================================== *)

Section specification.
Local Open Scope Z_scope.
Local Open Scope prog_scope.

(** The sample cache is what [New(10)] followed by [Set("a", 1)]
    builds on the empty heap. *)
Lemma cache1_built :
  run (New 10) heap0 = Returns (Some cache1, None) heap_new ∧
  run_ops cache1 [OpSet (VString "a") (VInt 1)] heap_new = Some heap1.
Proof. split; reflexivity. Qed.

(** C1. On a cache at rest, [Set(key, val)] with a comparable key
    returns the record [Item{key, val}] made of the arguments of this
    call, and [overwritten] is true exactly when an entry whose key is
    equal to [key] was present immediately before the call. *)
Theorem C1_Set_result ac σ key val :
  store_ok ac σ = true →
  hashable key = true →
  ∃ overwritten σ',
    run (Set_ ac key val) σ = Returns (mkItem key val, overwritten) σ' ∧
    (overwritten = true ↔
       ∃ k v, (k, v) ∈ entries ac σ ∧ go_eq k key = true).
Proof.
  intros Hok Hk. rewrite run_Set, Hk by done.
  eexists _, _. split; [done|]. apply has_key_spec.
Qed.

Lemma C1_Set_result_witness :
  ∃ overwritten σ',
    run (Set_ cache1 (VString "a") (VInt 2)) heap1 =
      Returns (mkItem (VString "a") (VInt 2), overwritten) σ' ∧
    (overwritten = true ↔
       ∃ k v, (k, v) ∈ entries cache1 heap1 ∧ go_eq k (VString "a") = true).
Proof.
  apply (C1_Set_result cache1 heap1 (VString "a") (VInt 2)); reflexivity.
Defined.

(** C2, as stated, fails: a NaN is a comparable key that differs from
    itself, so [Get] misses it right after [Set] stored it. *)
Lemma C2_counterexample :
  let k := VFloat64 S754_nan in
  let σ1 := Heap {[1%positive := [(VString "a", VInt 1); (k, VInt 7)]]}
              {[2%positive := false]} ∅ 3%positive (λ n, n) 0%nat in
  store_ok cache1 heap1 = true ∧
  hashable k = true ∧
  run (Set_ cache1 k (VInt 7)) heap1 = Returns (mkItem k (VInt 7), false) σ1 ∧
  run (Get cache1 k) σ1 = Returns (zero_Item, false) σ1 ∧
  run (Get cache1 k) σ1 ≠ Returns (mkItem k (VInt 7), true) σ1.
Proof. split_and!; [reflexivity..|discriminate]. Qed.

(** C2 (amended). For a comparable key [k]:
    - on a cache made by [New], after any calls none of which stored
      under a key equal to [k], [Get(k)] returns [(Item{}, false)];
    - if [k] contains no NaN, then after [Set(k, v)] and any further
      calls that neither flush nor store under a key equal to [k],
      [Get(k)] returns [(Item{k, v}, true)];
    - [Get(k)] returns and leaves the heap exactly as it was. *)
Theorem C2_Get_hit_and_miss k :
  hashable k = true →
  (∀ c σ0 ac σ os σ',
     run (New c) σ0 = Returns (Some ac, None) σ →
     run_ops ac os σ = Some σ' →
     forallb (λ o, negb (stores k o)) os = true →
     run (Get ac k) σ' = Returns (zero_Item, false) σ') ∧
  (has_nan k = false →
   ∀ ac σ v r σ1 os σ2,
     store_ok ac σ = true →
     run (Set_ ac k v) σ = Returns r σ1 →
     run_ops ac os σ1 = Some σ2 →
     forallb (λ o, negb (stores k o)) os = true →
     forallb (λ o, negb (is_flush o)) os = true →
     run (Get ac k) σ2 = Returns (mkItem k v, true) σ2) ∧
  (∀ ac σ, store_ok ac σ = true → ∃ r, run (Get ac k) σ = Returns r σ).
Proof.
  intros Hk. split_and!.
  - intros c σ0 ac σ os σ' Hnew Hrun Hs.
    destruct (New_store_ok _ _ _ _ Hnew) as [Hok He].
    destruct (run_ops_inv _ _ _ _ Hok Hrun) as (Hok' & He' & _).
    rewrite run_Get, Hk, He', He by done.
    by rewrite map_index_history_None.
  - intros Hr%no_nan_reflexive ac σ v r σ1 os σ2 Hok Hset Hrun Hs Hf; [|done].
    rewrite run_Set, Hk in Hset by done. injection Hset as <- <-.
    assert (Hok1 : store_ok ac
      (set_maps <[items ac:=map_assign (entries ac σ) k v]> σ) = true).
    { apply store_ok_set_maps; [done|]. apply map_assign_wf; [done|].
      by apply store_ok_inv. }
    destruct (run_ops_inv _ _ _ _ Hok1 Hrun) as (Hok2 & He2 & _).
    rewrite run_Get, Hk, He2, entries_set_maps by done.
    rewrite map_index_history, map_index_assign by done.
    unfold reflexive in Hr. by rewrite Hr.
  - intros ac σ Hok. rewrite run_Get, Hk by done. eauto.
Qed.

Lemma C2_Get_hit_and_miss_witness :
  run (Get cache1 (VString "b")) heap1 = Returns (zero_Item, false) heap1 ∧
  run (Get cache1 (VString "a")) heap1 =
    Returns (mkItem (VString "a") (VInt 1), true) heap1.
Proof.
  split.
  - destruct (C2_Get_hit_and_miss (VString "b") eq_refl) as (H & _ & _).
    apply (H 10 heap0 cache1 heap_new [OpSet (VString "a") (VInt 1)] heap1);
      reflexivity.
  - destruct (C2_Get_hit_and_miss (VString "a") eq_refl) as (_ & H & _).
    apply (H eq_refl cache1 heap_new (VInt 1)
             (mkItem (VString "a") (VInt 1), false) heap1 [] heap1);
      reflexivity.
Defined.

(** C3. [New(c)] fails with [ErrMinCacheSize] when [c < 1], fails with
    [ErrMaxCacheSize] when [c >= 524288000], and otherwise returns a
    cache at rest with no entries, whose [Len()] is 0. *)
Theorem C3_New_validates_capacity (c : Z) σ :
  (c < 1 → run (New c) σ = Returns (None, Some ErrMinCacheSize) σ) ∧
  (524288000 ≤ c → run (New c) σ = Returns (None, Some ErrMaxCacheSize) σ) ∧
  (1 ≤ c < 524288000 →
     ∃ ac σ', run (New c) σ = Returns (Some ac, None) σ' ∧
              store_ok ac σ' = true ∧
              entries ac σ' = [] ∧
              run (Len ac) σ' = Returns 0 σ').
Proof.
  rewrite run_New. unfold maxCacheSize.
  split_and!; intros Hc.
  - destruct (Z.geb_spec c (5 * 100 * 1024 * 1024)); [lia|].
    destruct (Z.ltb_spec c 1); [done|lia].
  - destruct (Z.geb_spec c (5 * 100 * 1024 * 1024)); [done|lia].
  - destruct (Z.geb_spec c (5 * 100 * 1024 * 1024)); [lia|].
    destruct (Z.ltb_spec c 1); [lia|].
    eexists _, _. split; [done|].
    assert (Hnew : run (New c) σ = Returns
      (Some (mkAnyCache (brk σ) (Pos.succ (brk σ))), None)
      (bump (set_mutexes <[Pos.succ (brk σ) := false]>
         (bump (set_maps <[brk σ := []]> σ))))).
    { rewrite run_New. unfold maxCacheSize.
      destruct (Z.geb_spec c (5 * 100 * 1024 * 1024)); [lia|].
      destruct (Z.ltb_spec c 1); [lia|done]. }
    destruct (New_store_ok _ _ _ _ Hnew) as [Hok He].
    split_and!; [done..|]. by rewrite run_Len, He.
Qed.

Lemma C3_New_validates_capacity_witness :
  run (New 0) heap0 = Returns (None, Some ErrMinCacheSize) heap0 ∧
  run (New 524288000) heap0 = Returns (None, Some ErrMaxCacheSize) heap0 ∧
  ∃ ac σ', run (New 524287999) heap0 = Returns (Some ac, None) σ' ∧
           store_ok ac σ' = true ∧
           entries ac σ' = [] ∧
           run (Len ac) σ' = Returns 0 σ'.
Proof.
  destruct (C3_New_validates_capacity 0 heap0) as (H1 & _ & _).
  destruct (C3_New_validates_capacity 524288000 heap0) as (_ & H2 & _).
  destruct (C3_New_validates_capacity 524287999 heap0) as (_ & _ & H3).
  split_and!; [apply H1; lia|apply H2; lia|apply H3; lia].
Defined.

(** C4. After [Flush()], [Len()] is 0, and [Get(k)] misses for every
    key [k] that was stored before, through any later calls, as long as
    none of them stores under a key equal to [k] again. *)
Theorem C4_Flush_empties ac σ :
  store_ok ac σ = true →
  ∃ σ', run (Flush ac) σ = Returns () σ' ∧
        run (Len ac) σ' = Returns 0 σ' ∧
        ∀ k os σ'',
          k ∈ keys (entries ac σ) →
          run_ops ac os σ' = Some σ'' →
          forallb (λ o, negb (stores k o)) os = true →
          run (Get ac k) σ'' = Returns (zero_Item, false) σ''.
Proof.
  intros Hok. rewrite run_Flush by done. eexists. split; [done|].
  assert (Hok' : store_ok ac (set_maps <[items ac:=[]]> σ) = true)
    by by apply store_ok_set_maps.
  split.
  - by rewrite run_Len, entries_set_maps.
  - intros k os σ'' Hin Hrun Hs.
    apply list_elem_of_fmap in Hin as ([k' v] & -> & Hin). cbn [fst] in *.
    assert (Hk : hashable k' = true).
    { eapply map_wf_hashable; [|done]. by apply store_ok_inv. }
    destruct (run_ops_inv _ _ _ _ Hok' Hrun) as (Hok'' & He'' & _).
    rewrite run_Get, Hk, He'', entries_set_maps by done.
    by rewrite map_index_history_None.
Qed.

Lemma C4_Flush_empties_witness :
  ∃ σ', run (Flush cache1) heap1 = Returns () σ' ∧
        run (Len cache1) σ' = Returns 0 σ' ∧
        run (Get cache1 (VString "a")) σ' = Returns (zero_Item, false) σ'.
Proof.
  destruct (C4_Flush_empties cache1 heap1 eq_refl) as (σ' & Hf & Hl & Hg).
  exists σ'. split_and!; [done..|].
  apply (Hg (VString "a") [] σ'); [|reflexivity..].
  vm_compute. apply list_elem_of_here.
Defined.

(** C5. On a cache at rest, [Keys()] returns a slice that holds
    exactly the stored keys, each once (a permutation of them, as many
    as there are entries, pairwise unequal); and the slice is a copy:
    whatever calls follow, it still holds the same keys. *)
Theorem C5_Keys_snapshot ac σ :
  store_ok ac σ = true →
  ∃ s σ', run (Keys ac) σ = Returns s σ' ∧
          slice_elems σ' s ≡ₚ keys (entries ac σ) ∧
          length (slice_elems σ' s) = length (entries ac σ) ∧
          distinct (slice_elems σ' s) = true ∧
          ∀ os σ'',
            run_ops ac os σ' = Some σ'' →
            slice_elems σ'' s = slice_elems σ' s.
Proof.
  intros Hok.
  destruct (Keys_spec ac σ Hok) as (s & σ' & Hrun & Hs & Hm & Hx & Hkept & Hp).
  assert (Hperm : slice_elems σ' s ≡ₚ keys (entries ac σ)).
  { rewrite Hs. unfold keys. by rewrite iteration_Permutation. }
  exists s, σ'. split_and!; try done.
  - rewrite Hperm. unfold keys. by rewrite length_fmap.
  - rewrite (distinct_Permutation _ _ Hperm).
    by apply map_wf_distinct, store_ok_inv.
  - intros os σ'' Hops.
    assert (Hok' : store_ok ac σ' = true)
      by (rewrite <- Hok; by apply store_ok_ext).
    destruct (run_ops_inv _ _ _ _ Hok' Hops) as (_ & _ & _ & Hkept').
    by apply slice_elems_kept.
Qed.

Lemma C5_Keys_snapshot_witness :
  ∃ s σ', run (Keys cache1) heap1 = Returns s σ' ∧
          slice_elems σ' s ≡ₚ keys (entries cache1 heap1) ∧
          length (slice_elems σ' s) = length (entries cache1 heap1) ∧
          distinct (slice_elems σ' s) = true ∧
          ∀ os σ'',
            run_ops cache1 os σ' = Some σ'' →
            slice_elems σ'' s = slice_elems σ' s.
Proof. apply (C5_Keys_snapshot cache1 heap1). reflexivity. Defined.

(** C6, as stated, fails: a key of a type that is not comparable is
    accepted by [Set] and [Get] (their parameter is an [any]) and makes
    them panic at run time. *)
Lemma C6_counterexample :
  store_ok cache1 heap1 = true ∧
  run (Set_ cache1 (incmpUser "bradford" 34) (VString "panic")) heap1 =
    Panics "runtime error: hash of unhashable type" heap1 ∧
  run (Get cache1 (incmpUser "bradford" 34)) heap1 =
    Panics "runtime error: hash of unhashable type" heap1.
Proof. split_and!; reflexivity. Qed.

(** C6 (amended). On a cache at rest, [Keys], [Flush] and [Len] always
    return; [Set] and [Get] return when the key is comparable (a miss of
    [Get] is a returned flag), and panic at run time with "hash of
    unhashable type", the cache left as it was, when it is not. *)
Theorem C6_failures ac σ key val :
  store_ok ac σ = true →
  (∃ s σ', run (Keys ac) σ = Returns s σ') ∧
  (∃ σ', run (Flush ac) σ = Returns () σ') ∧
  (∃ n, run (Len ac) σ = Returns n σ) ∧
  (hashable key = true →
     (∃ r σ', run (Set_ ac key val) σ = Returns r σ') ∧
     (∃ r, run (Get ac key) σ = Returns r σ)) ∧
  (hashable key = false →
     run (Set_ ac key val) σ = Panics unhashable σ ∧
     run (Get ac key) σ = Panics unhashable σ).
Proof.
  intros Hok.
  rewrite run_Keys, run_Flush, run_Len, run_Set, run_Get by done.
  split_and!; eauto.
  - intros ->. eauto.
  - by intros ->.
Qed.

Lemma C6_failures_witness :
  (∃ s σ', run (Keys cache1) heap1 = Returns s σ') ∧
  (∃ σ', run (Flush cache1) heap1 = Returns () σ') ∧
  (∃ n, run (Len cache1) heap1 = Returns n heap1) ∧
  ((∃ r σ', run (Set_ cache1 (cmpUser "bradford" 34) (VString "valid")) heap1
             = Returns r σ') ∧
   (∃ r, run (Get cache1 (cmpUser "bradford" 34)) heap1 = Returns r heap1)) ∧
  (run (Set_ cache1 (incmpUser "bradford" 34) (VString "panic")) heap1
     = Panics unhashable heap1 ∧
   run (Get cache1 (incmpUser "bradford" 34)) heap1 = Panics unhashable heap1).
Proof.
  destruct (C6_failures cache1 heap1 (cmpUser "bradford" 34) (VString "valid")
              eq_refl) as (H1 & H2 & H3 & H4 & _).
  destruct (C6_failures cache1 heap1 (incmpUser "bradford" 34) (VString "panic")
              eq_refl) as (_ & _ & _ & _ & H5).
  split; [exact H1|]. split; [exact H2|]. split; [exact H3|].
  split; [exact (H4 eq_refl)|exact (H5 eq_refl)].
Defined.

(** C7. The capacity given to [New] bounds nothing afterwards.  On a
    cache made by [New(c)], whatever [c]: every history of calls with
    comparable keys runs to its end; after any history, [Set] returns,
    adds an entry when the key is new, and keeps every entry stored
    under another key; and for every [n] some history of [Set] calls
    brings [Len()] to [n]. *)
Theorem C7_capacity_not_enforced c σ0 ac σ :
  run (New c) σ0 = Returns (Some ac, None) σ →
  (∀ os, forallb op_hashable os = true → ∃ σ', run_ops ac os σ = Some σ') ∧
  (∀ os σ' key val,
     run_ops ac os σ = Some σ' →
     hashable key = true →
     ∃ b σ'',
       run (Set_ ac key val) σ' = Returns (mkItem key val, b) σ'' ∧
       length (entries ac σ'') =
         (if b then length (entries ac σ') else S (length (entries ac σ'))) ∧
       ∀ k' v', (k', v') ∈ entries ac σ' → go_eq k' key = false →
                (k', v') ∈ entries ac σ'') ∧
  (∀ n : nat, ∃ σ',
     run_ops ac (int_keys n) σ = Some σ' ∧
     run (Len ac) σ' = Returns (Z.of_nat n) σ').
Proof.
  intros Hnew. destruct (New_store_ok _ _ _ _ Hnew) as [Hok He].
  split_and!.
  - intros os Hos. destruct (run_ops_spec ac os σ Hok Hos) as (σ' & ? & _).
    eauto.
  - intros os σ' key val Hrun Hk.
    destruct (run_ops_inv _ _ _ _ Hok Hrun) as (Hok' & _).
    rewrite run_Set, Hk by done. eexists _, _. split; [done|].
    rewrite entries_set_maps. split.
    + apply length_map_assign.
    + intros k' v' Hin Hne. apply elem_of_map_assign_ne; auto.
  - intros n.
    destruct (run_ops_spec ac (int_keys n) σ Hok (int_keys_hashable n))
      as (σ' & Hrun & Hok' & He' & _).
    exists σ'. split; [done|].
    rewrite run_Len, He', He by done.
    by destruct (int_keys_entries n) as [-> _].
Qed.

Lemma C7_capacity_not_enforced_witness :
  run (New 1) heap0 = Returns (Some cache1, None) heap_new ∧
  ∃ σ', run_ops cache1 (int_keys 3) heap_new = Some σ' ∧
        run (Len cache1) σ' = Returns 3 σ'.
Proof.
  split; [reflexivity|].
  destruct (C7_capacity_not_enforced 1 heap0 cache1 heap_new eq_refl)
    as (_ & _ & H).
  exact (H 3%nat).
Defined.

(** C8. [Get], [Len] and [Keys] are read-only.  [Get] and [Len] leave
    the whole heap as it was.  [Keys] allocates its result and draws an
    iteration order, and leaves every map and mutex as it was, so that
    the calls that follow return what they would have returned: the
    same from [Get] and [Len], the same keys from [Keys]. *)
Theorem C8_reads_do_not_mutate ac σ key :
  store_ok ac σ = true →
  hashable key = true →
  (∃ r, run (Get ac key) σ = Returns r σ) ∧
  (∃ n, run (Len ac) σ = Returns n σ) ∧
  (∃ s σ', run (Keys ac) σ = Returns s σ' ∧
           maps σ' = maps σ ∧
           mutexes σ' = mutexes σ ∧
           arrays_kept σ σ' ∧
           (∀ k, result (run (Get ac k) σ') = result (run (Get ac k) σ)) ∧
           result (run (Len ac) σ') = result (run (Len ac) σ) ∧
           (∃ s2 σ2, run (Keys ac) σ' = Returns s2 σ2 ∧
                     slice_elems σ2 s2 ≡ₚ slice_elems σ' s)).
Proof.
  intros Hok Hk. split_and!.
  - rewrite run_Get, Hk by done. eauto.
  - rewrite run_Len by done. eauto.
  - destruct (Keys_spec ac σ Hok) as (s & σ' & Hrun & Hs & Hm & Hx & Hkept & _).
    assert (Hok' : store_ok ac σ' = true)
      by (rewrite <- Hok; by apply store_ok_ext).
    pose proof (entries_ext ac σ σ' Hm) as He.
    exists s, σ'. split_and!; try done.
    + intros k. rewrite !run_Get, He by done. by destruct (hashable k).
    + by rewrite !run_Len, He by done.
    + destruct (Keys_spec ac σ' Hok') as (s2 & σ2 & Hrun2 & Hs2 & _).
      exists s2, σ2. split; [done|].
      rewrite Hs, Hs2, He. unfold keys. by rewrite !iteration_Permutation.
Qed.

Lemma C8_reads_do_not_mutate_witness :
  (∃ r, run (Get cache1 (VString "a")) heap1 = Returns r heap1) ∧
  (∃ n, run (Len cache1) heap1 = Returns n heap1) ∧
  (∃ s σ', run (Keys cache1) heap1 = Returns s σ' ∧
           maps σ' = maps heap1 ∧
           mutexes σ' = mutexes heap1 ∧
           arrays_kept heap1 σ' ∧
           (∀ k, result (run (Get cache1 k) σ') =
                 result (run (Get cache1 k) heap1)) ∧
           result (run (Len cache1) σ') = result (run (Len cache1) heap1) ∧
           (∃ s2 σ2, run (Keys cache1) σ' = Returns s2 σ2 ∧
                     slice_elems σ2 s2 ≡ₚ slice_elems σ' s)).
Proof. apply (C8_reads_do_not_mutate cache1 heap1 (VString "a")); reflexivity. Defined.

(** C9. Goroutines that call the five methods of one cache, scheduled
    one action at a time in any order.
    - Every method takes the mutex before anything else: it cannot start
      while the mutex is held, it runs the rest of its body with the
      release deferred, and whether it returns or panics it leaves the
      cache at rest, the mutex free.  A goroutine that holds the mutex
      keeps it at every step but its last, which releases it.
    - Every execution is finite, and some execution runs every
      goroutine to its end.
    - In every state an execution reaches: at most one goroutine holds
      the mutex and only that one is about to read or write the map (no
      data race); some goroutine can take a step unless all are done (no
      deadlock).
    - When all are done, heap and results are those of the calls run
      one after the other in some order (each call is atomic).  In
      particular [Set] calls under [N] pairwise unequal comparable keys
      on an empty cache leave [Len() = N], every pair stored and every
      goroutine returned. *)
Theorem C9_calls_are_atomic ac σ0 os :
  store_ok ac σ0 = true →
  (∀ o σ,
     (mutexes σ !! mu ac = Some true →
        thread_step (call_prog ac o) σ = None) ∧
     (mutexes σ !! mu ac = Some false →
        ∃ p', thread_step (call_prog ac o) σ =
                Some (p', set_mutexes <[mu ac := true]> σ) ∧
              inside (mu ac) p') ∧
     (store_ok ac σ = true →
        ∃ σ', store_ok ac σ' = true ∧
              if op_hashable o
              then ∃ r, run (call_prog ac o) σ = Returns r σ'
              else run (call_prog ac o) σ = Panics unhashable σ')) ∧
  (∀ (p p' : prog retval) σ σ',
     inside (mu ac) p → mutexes σ !! mu ac = Some true →
     thread_step p σ = Some (p', σ') →
     (inside (mu ac) p' ∧ final p' = false ∧
      mutexes σ' !! mu ac = Some true) ∨
     (final p' = true ∧ mutexes σ' !! mu ac = Some false)) ∧
  sn pool_step (σ0, spawn ac os) ∧
  (∃ σ ts, rtc pool_step (σ0, spawn ac os) (σ, ts) ∧
           Forall (λ p, final p = true) ts) ∧
  ∀ σ ts,
    rtc pool_step (σ0, spawn ac os) (σ, ts) →
    (∀ i j p q,
       ts !! i = Some p → ts !! j = Some q →
       holding p = true ∨ accessing (items ac) p = true →
       holding q = true ∨ accessing (items ac) q = true →
       i = j) ∧
    (Forall (λ p, final p = true) ts ∨ ∃ s', pool_step (σ, ts) s') ∧
    (Forall (λ p, final p = true) ts →
       (∃ h, h ≡ₚ zip os ts ∧ seq_exec ac h σ0 σ ∧ store_ok ac σ = true) ∧
       (∀ kvs,
          os = set_all kvs →
          forallb hashable kvs.*1 = true →
          distinct kvs.*1 = true →
          entries ac σ0 = [] →
          run (Len ac) σ = Returns (Z.of_nat (length kvs)) σ ∧
          (∀ kv, kv ∈ kvs → kv ∈ entries ac σ) ∧
          Forall (λ p, ∃ r, p = Ret r) ts)).
Proof.
  intros Hok. split_and!.
  - intros o σ. split_and!.
    + apply call_prog_waits.
    + apply call_prog_locks.
    + intros Hσ. destruct (call_prog_run ac o σ Hσ) as (σ' & ? & _ & ?).
      eauto.
  - intros p p' σ σ'. apply inside_step.
  - by apply pool_sn.
  - destruct (pool_inv_completes ac σ0 os (σ0, spawn ac os))
      as ([σ ts] & ? & ?); eauto.
    + by apply pool_inv_spawn.
    + by apply pool_sn.
  - intros σ ts Hreach.
    pose proof (pool_reachable_inv _ _ _ _ Hok Hreach) as Hinv.
    split_and!.
    + intros i j p q. by apply (pool_inv_exclusive _ _ _ _ i j p q Hinv).
    + apply (pool_inv_progress _ _ _ _ Hinv).
    + intros Hall.
      destruct (pool_inv_linearizable _ _ _ _ Hinv Hall)
        as (h & Hperm & Hseq & Hokσ).
      split; [eauto|].
      intros kvs -> Hh Hd Hempty.
      destruct (seq_exec_spec _ _ _ _ Hok Hseq) as (_ & He & Hends).
      cbn [fst snd] in *.
      assert (Hlen : length (set_all kvs) = length ts)
        by (by eapply Forall2_length, Hinv).
      assert (Hops : h.*1 ≡ₚ set_all kvs).
      { rewrite Hperm. apply reflexive_eq, fst_zip. lia. }
      destruct (sets_entries_any_order kvs h.*1 (entries ac σ0) Hops Hh Hd)
        as [Hn Hin].
      { intros k _. by rewrite Hempty. }
      rewrite <- He in Hn, Hin. split_and!.
      * rewrite run_Len, Hn, Hempty by done. done.
      * done.
      * rewrite Hperm in Hends.
        rewrite <- (snd_zip (set_all kvs) ts) by lia.
        apply Forall_fmap. apply Forall_forall. intros [o p] Hop.
        rewrite Forall_forall in Hends. specialize (Hends _ Hop).
        unfold ends_well in Hends. cbn [fst snd] in *.
        assert (Ho : o ∈ set_all kvs).
        { rewrite <- (fst_zip (set_all kvs) ts) by lia.
          apply list_elem_of_fmap. by exists (o, p). }
        apply list_elem_of_fmap in Ho as ([k v] & -> & Hkv).
        cbn [op_hashable fst snd] in Hends.
        rewrite forallb_forall in Hh.
        rewrite Hh in Hends; [done|].
        apply list_elem_of_In, list_elem_of_fmap. by exists (k, v).
Qed.

Lemma C9_calls_are_atomic_witness :
  ∃ σ ts,
    rtc pool_step
      (heap_new, spawn cache1 (set_all [(VInt 1, VString "1");
                                        (VInt 2, VString "2")]))
      (σ, ts) ∧
    Forall (λ p, final p = true) ts ∧
    run (Len cache1) σ = Returns 2 σ ∧
    (VInt 1, VString "1") ∈ entries cache1 σ ∧
    (VInt 2, VString "2") ∈ entries cache1 σ.
Proof.
  destruct (C9_calls_are_atomic cache1 heap_new
              (set_all [(VInt 1, VString "1"); (VInt 2, VString "2")])
              eq_refl) as (_ & _ & _ & (σ & ts & Hrun & Hall) & H).
  destruct (H σ ts Hrun) as (_ & _ & Hfin).
  destruct (Hfin Hall) as (_ & Hsets).
  destruct (Hsets [(VInt 1, VString "1"); (VInt 2, VString "2")]
              eq_refl eq_refl eq_refl eq_refl) as (Hlen & Hin & _).
  exists σ, ts. split_and!; [done..| |].
  - apply Hin. apply list_elem_of_here.
  - apply Hin. apply list_elem_of_further, list_elem_of_here.
Defined.

(** C10, as stated, fails for a key that differs from itself: after
    [Set(NaN, nil)], [Get(NaN)] is a miss. *)
Lemma C10_counterexample :
  let k := VFloat64 S754_nan in
  let σ1 := Heap {[1%positive := [(VString "a", VInt 1); (k, VNil)]]}
              {[2%positive := false]} ∅ 3%positive (λ n, n) 0%nat in
  store_ok cache1 heap1 = true ∧
  hashable k = true ∧
  run (Set_ cache1 k VNil) heap1 = Returns (mkItem k VNil, false) σ1 ∧
  run (Get cache1 k) σ1 = Returns (zero_Item, false) σ1 ∧
  run (Get cache1 k) σ1 ≠ Returns (mkItem k VNil, true) σ1.
Proof. split_and!; [reflexivity..|discriminate]. Qed.

(** C10 (amended). Storing nil differs from storing nothing.  For a
    comparable key [k], after [Set(k, nil)] the entry [(k, nil)] is in
    the map, [k] is among the keys that [Keys()] returns, and [Len()]
    counts it (one more than before when [k] was new).  If moreover [k]
    contains no NaN, [Get(k)] is a hit, [(Item{k, nil}, true)], and it
    is a hit with the stored value whatever value was stored. *)
Theorem C10_nil_value_is_present ac σ k :
  store_ok ac σ = true →
  hashable k = true →
  ∃ b σ1,
    run (Set_ ac k VNil) σ = Returns (mkItem k VNil, b) σ1 ∧
    (k, VNil) ∈ entries ac σ1 ∧
    (∃ s σ2, run (Keys ac) σ1 = Returns s σ2 ∧ k ∈ slice_elems σ2 s) ∧
    run (Len ac) σ1 =
      Returns (Z.of_nat (length (entries ac σ)) + (if b then 0 else 1)) σ1 ∧
    (has_nan k = false →
       run (Get ac k) σ1 = Returns (mkItem k VNil, true) σ1 ∧
       ∀ v r σ', run (Set_ ac k v) σ = Returns r σ' →
                 run (Get ac k) σ' = Returns (mkItem k v, true) σ').
Proof.
  intros Hok Hk. pose proof (store_ok_inv _ _ Hok) as (_ & Hwf & _).
  assert (Hafter : ∀ v, store_ok ac
    (set_maps <[items ac:=map_assign (entries ac σ) k v]> σ) = true).
  { intros v. apply store_ok_set_maps; [done|]. by apply map_assign_wf. }
  rewrite run_Set, Hk by done. eexists _, _. split; [done|].
  rewrite entries_set_maps. split_and!.
  - apply elem_of_map_assign.
  - destruct (Keys_spec ac _ (Hafter VNil)) as (s & σ2 & Hrun & Hs & _).
    exists s, σ2. split; [done|].
    rewrite Hs, entries_set_maps. unfold keys.
    rewrite iteration_Permutation.
    apply list_elem_of_fmap. exists (k, VNil). split; [done|].
    apply elem_of_map_assign.
  - rewrite run_Len, entries_set_maps, length_map_assign by done.
    f_equal. destruct (has_key (entries ac σ) k); lia.
  - intros Hr%no_nan_reflexive; [|done]. unfold reflexive in Hr. split.
    + by rewrite run_Get, Hk, entries_set_maps, map_index_assign, Hr.
    + intros v r σ' Hset. rewrite run_Set, Hk in Hset by done.
      injection Hset as <- <-.
      by rewrite run_Get, Hk, entries_set_maps, map_index_assign, Hr.
Qed.

Lemma C10_nil_value_is_present_witness :
  ∃ b σ1,
    run (Set_ cache1 (VString "b") VNil) heap1 =
      Returns (mkItem (VString "b") VNil, b) σ1 ∧
    (VString "b", VNil) ∈ entries cache1 σ1 ∧
    (∃ s σ2, run (Keys cache1) σ1 = Returns s σ2 ∧
             VString "b" ∈ slice_elems σ2 s) ∧
    run (Len cache1) σ1 =
      Returns (Z.of_nat (length (entries cache1 heap1)) + (if b then 0 else 1))
        σ1 ∧
    (has_nan (VString "b") = false →
       run (Get cache1 (VString "b")) σ1 =
         Returns (mkItem (VString "b") VNil, true) σ1 ∧
       ∀ v r σ', run (Set_ cache1 (VString "b") v) heap1 = Returns r σ' →
                 run (Get cache1 (VString "b")) σ' =
                   Returns (mkItem (VString "b") v, true) σ').
Proof.
  apply (C10_nil_value_is_present cache1 heap1 (VString "b")); reflexivity.
Defined.

End specification.

(* ===================================================================== *)
(** * Further properties of the code *)
(* ===================================================================== *)

Section further_properties.
Local Open Scope Z_scope.
Local Open Scope prog_scope.

(** X1. On a cache made by [New], after any history of calls, [Get(k)]
    returns the value of the latest [Set] under a key equal to [k] since
    the last [Flush], and misses when there is none; that value was
    passed to a [Set] of the history; and [Set(k, _)] reports an
    overwrite exactly when [Get(k)] would have hit. *)
Theorem X1_Get_returns_latest_write c σ0 ac σ os σ' k :
  run (New c) σ0 = Returns (Some ac, None) σ →
  run_ops ac os σ = Some σ' →
  hashable k = true →
  run (Get ac k) σ' =
    Returns match last_write k os with
            | Some v => (mkItem k v, true)
            | None => (zero_Item, false)
            end σ' ∧
  (∀ v, last_write k os = Some v →
        ∃ key, OpSet key v ∈ os ∧ go_eq key k = true) ∧
  (∀ val, ∃ σ'',
     run (Set_ ac k val) σ' =
       Returns (mkItem k val, bool_decide (is_Some (last_write k os))) σ'').
Proof.
  intros Hnew Hrun Hk. destruct (New_store_ok _ _ _ _ Hnew) as [Hok He].
  destruct (run_ops_inv _ _ _ _ Hok Hrun) as (Hok' & He' & _).
  assert (Hidx : map_index (entries ac σ') k = last_write k os).
  { by rewrite He', He, map_index_writes. }
  split_and!.
  - by rewrite run_Get, Hk, Hidx.
  - intros v Hv. by destruct (writes_Some _ _ _ _ Hv) as [?|?].
  - intros val. rewrite run_Set, Hk by done. eexists. do 2 f_equal.
    rewrite <- Hidx. destruct (map_index (entries ac σ') k) eqn:Hi.
    + rewrite bool_decide_true by eauto. apply map_index_has_key. eauto.
    + rewrite bool_decide_false by (by intros [? ?]).
      by apply map_index_None.
Qed.

Lemma X1_Get_returns_latest_write_witness :
  run (Get cache1 (VString "a")) heap1 =
    Returns (mkItem (VString "a") (VInt 1), true) heap1.
Proof.
  destruct (X1_Get_returns_latest_write 10 heap0 cache1 heap_new
              [OpSet (VString "a") (VInt 1)] heap1 (VString "a")
              eq_refl eq_refl eq_refl) as [H _].
  exact H.
Defined.

(** X2. On a cache made by [New], after any history of calls, every
    key that [Keys()] returns was the key of a [Set] made since the last
    [Flush], and every key of such a [Set] that is equal to itself has
    an equal key among those returned. *)
Theorem X2_Keys_are_the_keys_set c σ0 ac σ os σ' :
  run (New c) σ0 = Returns (Some ac, None) σ →
  run_ops ac os σ = Some σ' →
  ∃ s σ'',
    run (Keys ac) σ' = Returns s σ'' ∧
    (∀ k, k ∈ slice_elems σ'' s → ∃ v, OpSet k v ∈ since_flush os) ∧
    (∀ k v, OpSet k v ∈ since_flush os → reflexive k = true →
            ∃ k', k' ∈ slice_elems σ'' s ∧ go_eq k' k = true).
Proof.
  intros Hnew Hrun. destruct (New_store_ok _ _ _ _ Hnew) as [Hok He].
  destruct (run_ops_inv _ _ _ _ Hok Hrun) as (Hok' & He' & _).
  destruct (Keys_spec ac σ' Hok') as (s & σ'' & Hkeys & Hs & _).
  assert (Hem : entries ac σ' =
                foldl (λ em o, op_entries o em) [] (since_flush os)).
  { rewrite He', He, entries_since_flush. by destruct (forallb _ os). }
  assert (Hin : ∀ k, k ∈ slice_elems σ'' s ↔ ∃ v, (k, v) ∈ entries ac σ').
  { intros k. rewrite Hs. unfold keys. rewrite iteration_Permutation.
    rewrite list_elem_of_fmap. split.
    - intros ([k' v] & -> & ?). eauto.
    - intros [v ?]. by exists (k, v). }
  exists s, σ''. split_and!; [done| |].
  - intros k [v Hkv]%Hin. rewrite Hem in Hkv.
    destruct (entries_were_set _ _ _ _ Hkv) as [Hnil|?]; [|done].
    by apply elem_of_nil in Hnil.
  - intros k v Hset Hr.
    pose proof (has_key_once_set k v (since_flush os) []
                  (since_flush_no_flush os) Hr Hset) as Hhas.
    rewrite <- Hem in Hhas. apply has_key_spec in Hhas as (k' & v' & ? & ?).
    exists k'. split; [|done]. apply Hin. eauto.
Qed.

Lemma X2_Keys_are_the_keys_set_witness :
  ∃ s σ'',
    run (Keys cache1) heap1 = Returns s σ'' ∧
    (∀ k, k ∈ slice_elems σ'' s →
          ∃ v, OpSet k v ∈ since_flush [OpSet (VString "a") (VInt 1)]) ∧
    (∀ k v, OpSet k v ∈ since_flush [OpSet (VString "a") (VInt 1)] →
            reflexive k = true →
            ∃ k', k' ∈ slice_elems σ'' s ∧ go_eq k' k = true).
Proof.
  apply (X2_Keys_are_the_keys_set 10 heap0 cache1 heap_new
           [OpSet (VString "a") (VInt 1)] heap1); reflexivity.
Defined.

(** X3. On a cache at rest the three readers agree: [Len()] is the
    number of keys that [Keys()] returns, and [Get(k)] hits exactly when
    one of those keys is equal to [k]. *)
Theorem X3_Keys_Len_Get_agree ac σ :
  store_ok ac σ = true →
  ∃ s σ',
    run (Keys ac) σ = Returns s σ' ∧
    run (Len ac) σ = Returns (Z.of_nat (length (slice_elems σ' s))) σ ∧
    ∀ k, hashable k = true →
         (∃ item, run (Get ac k) σ = Returns (item, true) σ) ↔
         (∃ k', k' ∈ slice_elems σ' s ∧ go_eq k' k = true).
Proof.
  intros Hok.
  destruct (Keys_spec ac σ Hok) as (s & σ' & Hkeys & Hs & _).
  assert (Hperm : slice_elems σ' s ≡ₚ keys (entries ac σ)).
  { rewrite Hs. unfold keys. by rewrite iteration_Permutation. }
  exists s, σ'. split_and!; [done| |].
  - rewrite run_Len, Hperm by done. unfold keys. by rewrite length_fmap.
  - intros k Hk. rewrite run_Get, Hk by done.
    transitivity (has_key (entries ac σ) k = true).
    + rewrite <- map_index_has_key.
      destruct (map_index (entries ac σ) k); split.
      * eauto.
      * eauto.
      * by intros [? [=]].
      * by intros [? ?].
    + rewrite has_key_spec. split.
      * intros (k' & v & Hin & Heq). exists k'. split; [|done].
        rewrite Hperm. apply list_elem_of_fmap. by exists (k', v).
      * intros (k' & Hin & Heq). rewrite Hperm in Hin.
        apply list_elem_of_fmap in Hin as ([k'' v] & -> & Hin). eauto.
Qed.

Lemma X3_Keys_Len_Get_agree_witness :
  ∃ s σ',
    run (Keys cache1) heap1 = Returns s σ' ∧
    run (Len cache1) heap1 = Returns (Z.of_nat (length (slice_elems σ' s))) heap1 ∧
    ∀ k, hashable k = true →
         (∃ item, run (Get cache1 k) heap1 = Returns (item, true) heap1) ↔
         (∃ k', k' ∈ slice_elems σ' s ∧ go_eq k' k = true).
Proof. apply (X3_Keys_Len_Get_agree cache1 heap1). reflexivity. Defined.

(** X4. [Set(key, val)] changes the answer of [Get] for no key that
    is unequal to [key]. *)
Theorem X4_Set_leaves_other_keys ac σ key val k :
  store_ok ac σ = true →
  hashable key = true →
  go_eq key k = false →
  ∃ r σ1,
    run (Set_ ac key val) σ = Returns r σ1 ∧
    result (run (Get ac k) σ1) = result (run (Get ac k) σ).
Proof.
  intros Hok Hkey Hne. pose proof (store_ok_inv _ _ Hok) as (_ & Hwf & _).
  rewrite run_Set, Hkey by done. eexists _, _. split; [done|].
  rewrite (run_Get ac σ) by done.
  rewrite run_Get by (apply store_ok_set_maps; [done|by apply map_assign_wf]).
  rewrite entries_set_maps, map_index_assign, Hne. by destruct (hashable k).
Qed.

Lemma X4_Set_leaves_other_keys_witness :
  ∃ r σ1,
    run (Set_ cache1 (VString "b") (VInt 2)) heap1 = Returns r σ1 ∧
    result (run (Get cache1 (VString "a")) σ1) =
      result (run (Get cache1 (VString "a")) heap1).
Proof.
  apply (X4_Set_leaves_other_keys cache1 heap1 (VString "b") (VInt 2)
           (VString "a")); reflexivity.
Defined.

(** X5. Two [Set] calls under unequal keys commute: in either order
    each returns the same, and afterwards every [Get] and [Len] return
    the same. *)
Theorem X5_Sets_under_unequal_keys_commute ac σ k1 v1 k2 v2 :
  store_ok ac σ = true →
  hashable k1 = true →
  hashable k2 = true →
  go_eq k1 k2 = false →
  ∃ r1 r2 σa σb σ12 σ21,
    run (Set_ ac k1 v1) σ = Returns r1 σa ∧
    run (Set_ ac k2 v2) σa = Returns r2 σ12 ∧
    run (Set_ ac k2 v2) σ = Returns r2 σb ∧
    run (Set_ ac k1 v1) σb = Returns r1 σ21 ∧
    (∀ k, result (run (Get ac k) σ12) = result (run (Get ac k) σ21)) ∧
    result (run (Len ac) σ12) = result (run (Len ac) σ21).
Proof.
  intros Hok Hk1 Hk2 Hne. pose proof (store_ok_inv _ _ Hok) as (_ & Hwf & _).
  assert (Hne' : go_eq k2 k1 = false) by by rewrite go_eq_sym.
  set (em := entries ac σ).
  assert (Hok1 : ∀ k v, hashable k = true →
    store_ok ac (set_maps <[items ac:=map_assign em k v]> σ) = true).
  { intros. apply store_ok_set_maps; [done|]. by apply map_assign_wf. }
  assert (Hok2 : ∀ k v k' v', hashable k = true → hashable k' = true →
    store_ok ac (set_maps <[items ac:=map_assign (map_assign em k v) k' v']>
      (set_maps <[items ac:=map_assign em k v]> σ)) = true).
  { intros. apply store_ok_set_maps; [by apply Hok1|].
    by apply map_assign_wf, map_assign_wf. }
  exists (mkItem k1 v1, has_key em k1), (mkItem k2 v2, has_key em k2).
  eexists _, _, _, _. split_and!.
  - by rewrite run_Set, Hk1 by done.
  - rewrite run_Set, Hk2, entries_set_maps by by apply Hok1.
    fold em. by rewrite has_key_assign, Hne.
  - by rewrite run_Set, Hk2 by done.
  - rewrite run_Set, Hk1, entries_set_maps by by apply Hok1.
    fold em. by rewrite has_key_assign, Hne'.
  - intros k. rewrite !run_Get, !entries_set_maps by by apply Hok2.
    rewrite !map_index_assign. destruct (hashable k); [|done].
    destruct (go_eq k1 k) eqn:H1, (go_eq k2 k) eqn:H2; try done.
    rewrite (go_eq_sym k2 k) in H2.
    by rewrite (go_eq_trans k1 k k2 H1 H2) in Hne.
  - rewrite !run_Len, !entries_set_maps by by apply Hok2.
    rewrite !length_map_assign, !has_key_assign, Hne, Hne'. simpl.
    by destruct (has_key em k1), (has_key em k2).
Qed.

Lemma X5_Sets_under_unequal_keys_commute_witness :
  ∃ r1 r2 σa σb σ12 σ21,
    run (Set_ cache1 (VInt 1) VNil) heap1 = Returns r1 σa ∧
    run (Set_ cache1 (VInt 2) VNil) σa = Returns r2 σ12 ∧
    run (Set_ cache1 (VInt 2) VNil) heap1 = Returns r2 σb ∧
    run (Set_ cache1 (VInt 1) VNil) σb = Returns r1 σ21 ∧
    (∀ k, result (run (Get cache1 k) σ12) = result (run (Get cache1 k) σ21)) ∧
    result (run (Len cache1) σ12) = result (run (Len cache1) σ21).
Proof.
  apply (X5_Sets_under_unequal_keys_commute cache1 heap1
           (VInt 1) VNil (VInt 2) VNil); reflexivity.
Defined.

(** X6. [Flush] is idempotent, and a flushed cache is as good as new:
    a second [Flush] changes nothing, [Keys()] returns no key, and every
    [Set] reports that it overwrote nothing. *)
Theorem X6_Flush_is_idempotent ac σ :
  store_ok ac σ = true →
  ∃ σ1,
    run (Flush ac) σ = Returns () σ1 ∧
    run (Flush ac) σ1 = Returns () σ1 ∧
    (∃ s σ2, run (Keys ac) σ1 = Returns s σ2 ∧ slice_elems σ2 s = []) ∧
    (∀ key val, hashable key = true →
       ∃ σ2, run (Set_ ac key val) σ1 = Returns (mkItem key val, false) σ2).
Proof.
  intros Hok. rewrite run_Flush by done. eexists. split; [done|].
  assert (Hok1 : store_ok ac (set_maps <[items ac:=[]]> σ) = true)
    by by apply store_ok_set_maps.
  split_and!.
  - rewrite run_Flush by done. f_equal.
    destruct σ; unfold set_maps; simpl. f_equal. apply insert_insert_eq.
  - destruct (Keys_spec ac _ Hok1) as (s & σ2 & Hkeys & Hs & _).
    exists s, σ2. split; [done|]. by rewrite Hs, entries_set_maps.
  - intros key val Hkey. rewrite run_Set, Hkey, entries_set_maps by done.
    eauto.
Qed.

Lemma X6_Flush_is_idempotent_witness :
  ∃ σ1,
    run (Flush cache1) heap1 = Returns () σ1 ∧
    run (Flush cache1) σ1 = Returns () σ1 ∧
    (∃ s σ2, run (Keys cache1) σ1 = Returns s σ2 ∧ slice_elems σ2 s = []) ∧
    (∀ key val, hashable key = true →
       ∃ σ2, run (Set_ cache1 key val) σ1 = Returns (mkItem key val, false) σ2).
Proof. apply (X6_Flush_is_idempotent cache1 heap1). reflexivity. Defined.

(** X7. Two caches made by [New] share nothing.  Whatever calls are
    made on the two, in any order, each cache ends with the entries
    that its own calls alone would have left, and answers [Get] and
    [Len] accordingly. *)
Theorem X7_caches_are_independent c1 c2 σ0 ac1 σ1 os σ2 ac2 σ3 h σ4 :
  run (New c1) σ0 = Returns (Some ac1, None) σ1 →
  run_ops ac1 os σ1 = Some σ2 →
  run (New c2) σ2 = Returns (Some ac2, None) σ3 →
  Forall (λ x, x.1 = ac1 ∨ x.1 = ac2) h →
  run_mixed h σ3 = Some σ4 →
  separate ac1 ac2 ∧
  ∀ ac, ac = ac1 ∨ ac = ac2 →
    ∃ σ', run_ops ac (calls_on ac h) σ3 = Some σ' ∧
          entries ac σ4 = entries ac σ' ∧
          (∀ k, result (run (Get ac k) σ4) = result (run (Get ac k) σ')) ∧
          result (run (Len ac) σ4) = result (run (Len ac) σ').
Proof.
  intros Hnew1 Hops Hnew2 Hall Hmixed.
  destruct (New_store_ok _ _ _ _ Hnew1) as [Hok1 _].
  destruct (run_ops_inv _ _ _ _ Hok1 Hops) as (Hok1' & _ & _ & [Hbrk _]).
  destruct (New_fresh _ _ _ _ Hnew1) as (Hi1 & Hm1 & Hb1 & _).
  destruct (New_fresh _ _ _ _ Hnew2) as (Hi2 & Hm2 & _ & Hmaps & Hmus).
  destruct (New_store_ok _ _ _ _ Hnew2) as [Hok2 _].
  assert (Hsep : separate ac1 ac2).
  { split; [rewrite Hi1, Hi2|rewrite Hm1, Hm2]; lia. }
  assert (Hok13 : store_ok ac1 σ3 = true).
  { rewrite <- Hok1'. unfold store_ok.
    rewrite Hmaps, Hmus; [done|rewrite Hm1, Hm2; lia|rewrite Hi1, Hi2; lia]. }
  split; [done|].
  destruct (run_mixed_separate ac1 ac2 h σ3 σ4 Hsep Hok13 Hok2 Hall Hmixed)
    as [[Hok14 He1] [Hok24 He2]].
  assert (Hown : ∀ ac, store_ok ac σ3 = true → store_ok ac σ4 = true →
    entries ac σ4 =
      foldl (λ em o, op_entries o em) (entries ac σ3) (calls_on ac h) →
    forallb op_hashable (calls_on ac h) = true →
    ∃ σ', run_ops ac (calls_on ac h) σ3 = Some σ' ∧
          entries ac σ4 = entries ac σ' ∧
          (∀ k, result (run (Get ac k) σ4) = result (run (Get ac k) σ')) ∧
          result (run (Len ac) σ4) = result (run (Len ac) σ')).
  { intros ac Hok3 Hok4 He Hh.
    destruct (run_ops_spec ac _ σ3 Hok3 Hh) as (σ' & Hrun & Hok' & He' & _).
    exists σ'. rewrite <- He' in He. split_and!; try done.
    - intros k. rewrite !run_Get, He by done. by destruct (hashable k).
    - by rewrite !run_Len, He by done. }
  assert (Hhash : ∀ ac, forallb op_hashable (calls_on ac h) = true).
  { intros ac. clear -Hall Hmixed Hok13 Hok2 Hsep. revert σ3 Hok13 Hok2 Hmixed.
    assert (Hsep' : separate ac2 ac1) by (destruct Hsep; by split).
    induction h as [|[ac' o] h IH]; intros σ3 Hok13 Hok2 Hmixed; [done|].
    apply Forall_cons in Hall as [Hac Hall]. simpl in Hac, Hmixed.
    destruct (run_op ac' o σ3) as [σ|] eqn:Ho; [|done].
    assert (Ho' : op_hashable o = true).
    { destruct Hac as [->| ->].
      - pose proof (run_op_spec ac1 o σ3 Hok13) as Hs.
        destruct (op_hashable o); [done|congruence].
      - pose proof (run_op_spec ac2 o σ3 Hok2) as Hs.
        destruct (op_hashable o); [done|congruence]. }
    assert (store_ok ac1 σ = true ∧ store_ok ac2 σ = true) as [? ?].
    { destruct Hac as [->| ->].
      - destruct (run_op_entries _ _ _ _ Hok13 Ho) as (? & _).
        destruct (run_op_separate _ ac2 _ _ _ Hok13 Ho Hsep) as [Hx _].
        split; [done|congruence].
      - destruct (run_op_entries _ _ _ _ Hok2 Ho) as (? & _).
        destruct (run_op_separate _ ac1 _ _ _ Hok2 Ho Hsep') as [Hx _].
        split; [congruence|done]. }
    destruct (decide (ac' = ac)) as [->|Hne].
    - rewrite calls_on_cons_eq. simpl. rewrite Ho'. by apply (IH Hall σ).
    - rewrite calls_on_cons_ne by done. by apply (IH Hall σ). }
  intros ac [->| ->]; by apply Hown.
Qed.

Lemma X7_caches_are_independent_witness :
  ∃ ac2 σ3 σ4,
    run (New 5) heap1 = Returns (Some ac2, None) σ3 ∧
    run_mixed [(ac2, OpSet (VString "a") (VInt 9)); (cache1, OpLen)] σ3
      = Some σ4 ∧
    result (run (Get cache1 (VString "a")) σ4) =
      Some (mkItem (VString "a") (VInt 1), true) ∧
    result (run (Get ac2 (VString "a")) σ4) =
      Some (mkItem (VString "a") (VInt 9), true).
Proof.
  set (ac2 := mkAnyCache 3%positive 4%positive).
  set (h := [(ac2, OpSet (VString "a") (VInt 9)); (cache1, OpLen)]).
  set (σ3 := default heap1 (returned (run (New 5) heap1))).
  set (σ4 := default heap1 (run_mixed h σ3)).
  exists ac2, σ3, σ4. split; [reflexivity|]. split; [reflexivity|].
  destruct (X7_caches_are_independent 10 5 heap0 cache1 heap_new
              [OpSet (VString "a") (VInt 1)] heap1 ac2 σ3 h σ4
              eq_refl eq_refl eq_refl) as [_ H];
    [by repeat constructor|reflexivity|].
  split.
  - destruct (H cache1 (or_introl eq_refl)) as (σ' & Hrun & _ & Hget & _).
    rewrite Hget. injection Hrun as <-. reflexivity.
  - destruct (H ac2 (or_intror eq_refl)) as (σ' & Hrun & _ & Hget & _).
    rewrite Hget. injection Hrun as <-. reflexivity.
Defined.

(** X8. Only [New] makes a usable cache: on an [AnyCache] whose [mu]
    points to no mutex (the zero value), each of the five methods
    panics with a nil pointer dereference before it touches anything. *)
Theorem X8_methods_need_New ac σ key val :
  mutexes σ !! mu ac = None →
  run (Set_ ac key val) σ = Panics nil_deref σ ∧
  run (Get ac key) σ = Panics nil_deref σ ∧
  run (Keys ac) σ = Panics nil_deref σ ∧
  run (Flush ac) σ = Panics nil_deref σ ∧
  run (Len ac) σ = Panics nil_deref σ.
Proof. intros Hmu. split_and!; simpl; by rewrite Hmu. Qed.

Lemma X8_methods_need_New_witness :
  run (Set_ cache1 (VInt 1) VNil) heap0 = Panics nil_deref heap0 ∧
  run (Get cache1 (VInt 1)) heap0 = Panics nil_deref heap0 ∧
  run (Keys cache1) heap0 = Panics nil_deref heap0 ∧
  run (Flush cache1) heap0 = Panics nil_deref heap0 ∧
  run (Len cache1) heap0 = Panics nil_deref heap0.
Proof. apply (X8_methods_need_New cache1 heap0). reflexivity. Defined.

(** X9. Goroutines that only read.  However calls of [Get], [Keys] and
    [Len] with comparable keys are interleaved, some schedule runs them
    all to their end, and whenever all are done: the entries are as they
    were; each call has returned what it returns on the cache as it was
    at the start ([Keys] a slice that holds the keys of the cache, each
    once); and with [Get] calls alone, as many report a hit as were made
    with a key that the cache holds. *)
Theorem X9_concurrent_reads ac σ0 os :
  store_ok ac σ0 = true →
  forallb is_read os = true →
  forallb op_hashable os = true →
  (∃ σ ts, rtc pool_step (σ0, spawn ac os) (σ, ts) ∧
           Forall (λ p, final p = true) ts) ∧
  ∀ σ ts,
    rtc pool_step (σ0, spawn ac os) (σ, ts) →
    Forall (λ p, final p = true) ts →
    store_ok ac σ = true ∧
    entries ac σ = entries ac σ0 ∧
    Forall2 (λ o p, ∃ r, p = Ret r ∧ answer σ (entries ac σ0) o r) os ts ∧
    ∀ ks, os = OpGet <$> ks →
          tally flagged ts = tally (has_key (entries ac σ0)) ks.
Proof.
  intros Hok Hr Hh. apply forallb_Forall in Hr, Hh.
  split; [by apply pool_completes|]. intros σ ts Hreach Hall.
  destruct (pool_answers ac σ0 os σ ts Hok Hh Hreach Hall)
    as (Hlen & Hokσ & h & Hperm & H1 & H2 & Hans & He).
  assert (Hr' : Forall (λ o, is_read o = true) h.*1) by (by rewrite H1).
  destruct (seq_answers_reads σ h _ Hr' Hans) as [Hf Hfold].
  assert (HF2 : Forall2 (λ o p, ∃ r, p = Ret r ∧ answer σ (entries ac σ0) o r)
                  os ts).
  { apply Forall2_zip; [done|]. by rewrite <- Hperm. }
  split_and!; [done|by rewrite He, Hfold|done|].
  intros ks ->. by apply (tally_hits σ).
Qed.

Lemma X9_concurrent_reads_witness :
  ∃ σ ts,
    rtc pool_step
      (heap1, spawn cache1 (OpGet <$> [VString "a"; VString "b"; VString "a"]))
      (σ, ts) ∧
    Forall (λ p, final p = true) ts ∧
    entries cache1 σ = entries cache1 heap1 ∧
    tally flagged ts = 2%nat.
Proof.
  destruct (X9_concurrent_reads cache1 heap1
              (OpGet <$> [VString "a"; VString "b"; VString "a"]))
    as [(σ & ts & Hrun & Hall) H]; [reflexivity..|].
  destruct (H σ ts Hrun Hall) as (_ & He & _ & Hhits).
  exists σ, ts. split_and!; [done..|]. by rewrite (Hhits _ eq_refl).
Defined.

(** X10. Reads amid writes.  In a pool of calls with comparable keys and
    no [Flush], with [n] calls of [Set], on a cache that holds [m]
    entries: some schedule runs all to their end, and whenever all are
    done, the cache holds between [m] and [m + n] entries, a key for
    each key it held; every [Keys] has returned a slice of a length
    between [m] and [m + n] that holds a key for each key the cache held
    at the start; every [Len] has returned a number between [m] and
    [m + n]; and every [Get] and [Set] under a key the cache held at the
    start has reported a hit, an overwrite. *)
Theorem X10_reads_amid_Sets ac σ0 os :
  store_ok ac σ0 = true →
  forallb op_hashable os = true →
  forallb (λ o, negb (is_flush o)) os = true →
  (∃ σ ts, rtc pool_step (σ0, spawn ac os) (σ, ts) ∧
           Forall (λ p, final p = true) ts) ∧
  ∀ σ ts,
    rtc pool_step (σ0, spawn ac os) (σ, ts) →
    Forall (λ p, final p = true) ts →
    grown (entries ac σ0) (entries ac σ) (sets os) ∧
    ∀ i,
      (os !! i = Some OpKeys →
         ∃ s, ts !! i = Some (Ret (RKeys s)) ∧
              (length (entries ac σ0) ≤ len s
                 ≤ length (entries ac σ0) + sets os)%nat ∧
              ∀ k, has_key (entries ac σ0) k = true →
                   ∃ k', k' ∈ slice_elems σ s ∧ go_eq k' k = true) ∧
      (os !! i = Some OpLen →
         ∃ n, ts !! i = Some (Ret (RInt n)) ∧
              Z.of_nat (length (entries ac σ0)) ≤ n
                ≤ Z.of_nat (length (entries ac σ0) + sets os)) ∧
      (∀ k, os !! i = Some (OpGet k) →
            has_key (entries ac σ0) k = true →
            ∃ v, ts !! i = Some (Ret (RItem (mkItem k v) true))) ∧
      (∀ k v, os !! i = Some (OpSet k v) →
              has_key (entries ac σ0) k = true →
              ts !! i = Some (Ret (RItem (mkItem k v) true))).
Proof.
  intros Hok Hh Hnf. apply forallb_Forall in Hh, Hnf.
  split; [by apply pool_completes|]. intros σ ts Hreach Hall.
  destruct (pool_answers ac σ0 os σ ts Hok Hh Hreach Hall)
    as (Hlen & Hokσ & h & Hperm & H1 & H2 & Hans & He).
  assert (Hnf' : Forall (λ o, is_flush o = false) h.*1).
  { rewrite H1. eapply Forall_impl; [exact Hnf|].
    intros o Ho. by apply negb_true_iff. }
  destruct (seq_answers_grown σ h _ Hnf' Hans) as [Hf Hg].
  rewrite (sets_Permutation _ _ H1) in Hf, Hg. rewrite <- He in Hg.
  split; [done|].
  assert (HF2 : Forall2 (λ o p, ∃ r em, p = Ret r ∧ answer σ em o r ∧
                           grown (entries ac σ0) em (sets os)) os ts).
  { apply Forall2_zip; [done|]. by rewrite <- Hperm. }
  intros i. split_and!.
  - intros Ho.
    destruct (Forall2_lookup_l _ _ _ _ _ HF2 Ho)
      as (p & Hp & r & em & -> & (s & -> & Hs & Hel) & [Hk Hn]).
    exists s. split_and!; [done|lia|lia|].
    intros k Hk0. apply Hk, has_key_spec in Hk0 as (k' & v & Hin & Hk').
    exists k'. split; [|done]. rewrite Hel.
    apply list_elem_of_fmap. by exists (k', v).
  - intros Ho.
    destruct (Forall2_lookup_l _ _ _ _ _ HF2 Ho)
      as (p & Hp & r & em & -> & -> & [Hk Hn]).
    eexists. split; [done|]. lia.
  - intros k Ho Hk0.
    destruct (Forall2_lookup_l _ _ _ _ _ HF2 Ho)
      as (p & Hp & r & em & -> & Hr & [Hk Hn]).
    cbn [answer] in Hr. apply Hk, map_index_has_key in Hk0 as [v Hv].
    rewrite Hv in Hr. subst r. by exists v.
  - intros k v Ho Hk0.
    destruct (Forall2_lookup_l _ _ _ _ _ HF2 Ho)
      as (p & Hp & r & em & -> & Hr & [Hk Hn]).
    cbn [answer] in Hr. by rewrite (Hk _ Hk0) in Hr; subst r.
Qed.

Lemma X10_reads_amid_Sets_witness :
  ∃ σ ts s,
    rtc pool_step
      (heap1, spawn cache1 [OpSet (VString "b") (VInt 2); OpKeys;
                            OpSet (VString "c") (VInt 3)])
      (σ, ts) ∧
    Forall (λ p, final p = true) ts ∧
    ts !! 1%nat = Some (Ret (RKeys s)) ∧
    (1 ≤ len s ≤ 3)%nat ∧
    ∃ k', k' ∈ slice_elems σ s ∧ go_eq k' (VString "a") = true.
Proof.
  destruct (X10_reads_amid_Sets cache1 heap1
              [OpSet (VString "b") (VInt 2); OpKeys;
               OpSet (VString "c") (VInt 3)])
    as [(σ & ts & Hrun & Hall) H]; [reflexivity..|].
  destruct (H σ ts Hrun Hall) as [_ Hi].
  destruct (Hi 1%nat) as ((s & Hs & Hlen & Hel) & _). { reflexivity. }
  exists σ, ts, s. split_and!; [done..|exact (proj1 Hlen)|exact (proj2 Hlen)|].
  apply Hel. reflexivity.
Defined.

(** X11. Goroutines that [Set] under one comparable key.  Some schedule
    runs them all to their end, and whenever all are done: each has
    returned its own [Item]; exactly one has reported no overwrite when
    the cache held no such key, and none when it did; the cache holds
    one entry more, or as many as before; and [Get] under that key hits
    with the value of one of the calls.  Under a key that differs from
    itself every call reports no overwrite and adds an entry, and [Get]
    misses. *)
Theorem X11_Sets_under_one_key ac σ0 k v0 vs :
  store_ok ac σ0 = true →
  hashable k = true →
  (∃ σ ts, rtc pool_step (σ0, spawn ac (OpSet k <$> v0 :: vs)) (σ, ts) ∧
           Forall (λ p, final p = true) ts) ∧
  ∀ σ ts,
    rtc pool_step (σ0, spawn ac (OpSet k <$> v0 :: vs)) (σ, ts) →
    Forall (λ p, final p = true) ts →
    Forall2 (λ v p, ∃ ok, p = Ret (RItem (mkItem k v) ok)) (v0 :: vs) ts ∧
    tally unflagged ts = newcomers k (entries ac σ0) (S (length vs)) ∧
    run (Len ac) σ =
      Returns (Z.of_nat (length (entries ac σ0) +
                         newcomers k (entries ac σ0) (S (length vs)))) σ ∧
    if go_eq k k
    then ∃ v, v ∈ v0 :: vs ∧ run (Get ac k) σ = Returns (mkItem k v, true) σ
    else run (Get ac k) σ = Returns (zero_Item, false) σ.
Proof.
  intros Hok Hk. split; [by apply pool_completes|]. intros σ ts Hreach Hall.
  set (os := OpSet k <$> v0 :: vs) in *.
  assert (Hos : Forall (λ o, ∃ v, o = OpSet k v) os).
  { apply Forall_fmap, Forall_forall. intros v _. by exists v. }
  assert (Hh : Forall (λ o, op_hashable o = true) os).
  { eapply Forall_impl; [exact Hos|]. by intros o [v ->]. }
  destruct (pool_answers ac σ0 os σ ts Hok Hh Hreach Hall)
    as (Hlen & Hokσ & h & Hperm & H1 & H2 & Hans & He).
  assert (Hos' : Forall (λ o, ∃ v, o = OpSet k v) h.*1) by (by rewrite H1).
  destruct (seq_answers_one_key σ k h _ Hos' Hans) as [Ht Hl].
  assert (Hn : length h = S (length vs)).
  { rewrite <- (length_fmap fst h), H1. unfold os. by rewrite length_fmap. }
  rewrite Hn in Ht, Hl. rewrite (tally_Permutation _ _ _ H2) in Ht.
  rewrite <- He in Hl.
  assert (HF2 : Forall2 (λ o p, ∃ r pre, p = Ret r ∧ pre ⊆ os ∧
      answer σ (foldl (λ em o, op_entries o em) (entries ac σ0) pre) o r) os ts).
  { apply Forall2_zip; [done|]. rewrite <- Hperm.
    eapply Forall_impl; [exact (seq_answers_point σ h _ Hans)|].
    intros [o p] (r & pre & ? & Hpre & ?). exists r, pre.
    split_and!; [done| |done]. by rewrite <- H1. }
  split_and!.
  - unfold os in HF2. apply Forall2_fmap_l in HF2.
    eapply Forall2_impl; [exact HF2|].
    intros v p (r & pre & -> & _ & ->). eauto.
  - done.
  - by rewrite run_Len, Hl by done.
  - rewrite run_Get, Hk, He by done.
    destruct (one_key_lookup k h.*1 (entries ac σ0)) as (v & Hv & Hix);
      [|done|].
    { intros Hnil. apply (f_equal length) in Hnil.
      rewrite length_fmap, Hn in Hnil. done. }
    rewrite Hix. destruct (go_eq k k); [|done].
    exists v. split; [|done]. rewrite H1 in Hv. unfold os in Hv.
    apply list_elem_of_fmap in Hv as (v' & [= ->] & ?). done.
Qed.

Lemma X11_Sets_under_one_key_witness :
  ∃ σ ts,
    rtc pool_step
      (heap_new, spawn cache1 (OpSet (VInt 7) <$> [VInt 1; VInt 2; VInt 3]))
      (σ, ts) ∧
    Forall (λ p, final p = true) ts ∧
    tally unflagged ts = 1%nat ∧
    run (Len cache1) σ = Returns 1 σ ∧
    ∃ v, v ∈ [VInt 1; VInt 2; VInt 3] ∧
         run (Get cache1 (VInt 7)) σ = Returns (mkItem (VInt 7) v, true) σ.
Proof.
  destruct (X11_Sets_under_one_key cache1 heap_new (VInt 7) (VInt 1)
              [VInt 2; VInt 3])
    as [(σ & ts & Hrun & Hall) H]; [reflexivity..|].
  destruct (H σ ts Hrun Hall) as (_ & Ht & Hl & Hg).
  exists σ, ts. split; [exact Hrun|]. split; [exact Hall|].
  split; [exact Ht|]. split; [exact Hl|exact Hg].
Defined.

(** X12. No value out of thin air.  In a pool of calls with comparable
    keys, whenever all are done, a [Get(k)] that has reported a hit has
    returned [k] with a value that the cache held at the start under a
    key equal to [k] or that a [Set] of the pool stored under such a
    key; and a [Get(k)] that has reported a miss has returned the zero
    [Item]. *)
Theorem X12_Get_returns_stored_values ac σ0 os :
  store_ok ac σ0 = true →
  forallb op_hashable os = true →
  (∃ σ ts, rtc pool_step (σ0, spawn ac os) (σ, ts) ∧
           Forall (λ p, final p = true) ts) ∧
  ∀ σ ts,
    rtc pool_step (σ0, spawn ac os) (σ, ts) →
    Forall (λ p, final p = true) ts →
    ∀ i k, os !! i = Some (OpGet k) →
      ts !! i = Some (Ret (RItem zero_Item false)) ∨
      ∃ v, ts !! i = Some (Ret (RItem (mkItem k v) true)) ∧
           (map_index (entries ac σ0) k = Some v ∨
            ∃ key, OpSet key v ∈ os ∧ go_eq key k = true).
Proof.
  intros Hok Hh. split; [by apply pool_completes|].
  intros σ ts Hreach Hall i k Ho. apply forallb_Forall in Hh.
  destruct (pool_answers ac σ0 os σ ts Hok Hh Hreach Hall)
    as (Hlen & Hokσ & h & Hperm & H1 & H2 & Hans & He).
  assert (HF2 : Forall2 (λ o p, ∃ r pre, p = Ret r ∧ pre ⊆ os ∧
      answer σ (foldl (λ em o, op_entries o em) (entries ac σ0) pre) o r) os ts).
  { apply Forall2_zip; [done|]. rewrite <- Hperm.
    eapply Forall_impl; [exact (seq_answers_point σ h _ Hans)|].
    intros [o p] (r & pre & ? & Hpre & ?). exists r, pre.
    split_and!; [done| |done]. by rewrite <- H1. }
  destruct (Forall2_lookup_l _ _ _ _ _ HF2 Ho)
    as (p & Hp & r & pre & -> & Hpre & Hr).
  cbn [answer] in Hr. rewrite map_index_writes in Hr.
  destruct (writes k (map_index (entries ac σ0) k) pre) as [v|] eqn:Hw;
    subst r; [right|by left].
  exists v. split; [done|].
  destruct (writes_Some _ _ _ _ Hw) as [?|(key & Hin & Hkey)]; [by left|].
  right. exists key. split; [by apply Hpre|done].
Qed.

Lemma X12_Get_returns_stored_values_witness :
  ∃ σ ts,
    rtc pool_step
      (heap1, spawn cache1 [OpSet (VString "a") (VInt 2); OpFlush;
                            OpGet (VString "a")])
      (σ, ts) ∧
    Forall (λ p, final p = true) ts ∧
    (ts !! 2%nat = Some (Ret (RItem zero_Item false)) ∨
     ts !! 2%nat = Some (Ret (RItem (mkItem (VString "a") (VInt 1)) true)) ∨
     ts !! 2%nat = Some (Ret (RItem (mkItem (VString "a") (VInt 2)) true))).
Proof.
  destruct (X12_Get_returns_stored_values cache1 heap1
              [OpSet (VString "a") (VInt 2); OpFlush; OpGet (VString "a")])
    as [(σ & ts & Hrun & Hall) H]; [reflexivity..|].
  exists σ, ts. split_and!; [done..|].
  destruct (H σ ts Hrun Hall 2%nat (VString "a") eq_refl)
    as [?|(v & Hv & [Hini|(key & Hin & Hkey)])]; [by left|..].
  - right. left. simpl in Hini. by injection Hini as <-.
  - right. right.
    apply elem_of_cons in Hin as [[= -> ->]|Hin]; [done|].
    apply elem_of_cons in Hin as [?|Hin]; [done|].
    apply elem_of_cons in Hin as [?|Hin]; [done|].
    by apply elem_of_nil in Hin.
Defined.

(** X13. What [make] in [New] is for.  On an [AnyCache] with a free
    mutex whose [items] is the nil map, the reads answer as on an empty
    cache and [Flush] does nothing, all leaving maps and mutexes as they
    were; [Set] with a comparable key panics with "assignment to entry
    in nil map", and the deferred [Unlock] releases the mutex: the heap
    is as before the call. *)
Theorem X13_nil_map ac σ key val :
  mutexes σ !! mu ac = Some false →
  maps σ !! items ac = None →
  hashable key = true →
  run (Get ac key) σ = Returns (zero_Item, false) σ ∧
  run (Len ac) σ = Returns 0 σ ∧
  (∃ s σ', run (Keys ac) σ = Returns s σ' ∧ len s = 0%nat ∧
           maps σ' = maps σ ∧ mutexes σ' = mutexes σ) ∧
  run (Flush ac) σ = Returns () σ ∧
  run (Set_ ac key val) σ = Panics nil_map_assign σ.
Proof.
  intros Hmu Hmap Hkey.
  assert (He : entries ac σ = []) by exact (f_equal (default []) Hmap).
  split_and!.
  - simpl. rewrite Hmu. simpl. rewrite Hkey. fold (entries ac σ).
    rewrite He. simpl. rewrite lookup_insert_eq. by rewrite unlock_lock.
  - simpl. rewrite Hmu. simpl. fold (entries ac σ).
    rewrite He. simpl. rewrite lookup_insert_eq. by rewrite unlock_lock.
  - simpl. rewrite Hmu. simpl. fold (entries ac σ).
    rewrite He. simpl. rewrite lookup_insert_eq. eexists _, _.
    split; [done|]. split_and!; [done|done|]. simpl.
    rewrite insert_insert_eq. by apply insert_id.
  - simpl. rewrite Hmu. simpl. rewrite Hmap. simpl.
    rewrite lookup_insert_eq. by rewrite unlock_lock.
  - simpl. rewrite Hmu. simpl. rewrite Hkey. simpl. rewrite Hmap. simpl.
    rewrite lookup_insert_eq. by rewrite unlock_lock.
Qed.

Lemma X13_nil_map_witness :
  run (Set_ (mkAnyCache 9%positive 2%positive) (VInt 1) VNil) heap_new =
    Panics nil_map_assign heap_new ∧
  run (Len (mkAnyCache 9%positive 2%positive)) heap_new = Returns 0 heap_new.
Proof.
  destruct (X13_nil_map (mkAnyCache 9%positive 2%positive) heap_new (VInt 1) VNil)
    as (_ & Hlen & _ & _ & Hset); [reflexivity..|].
  by split.
Defined.

End further_properties.
